(** * A chained hash map from [int] keys to [int] values: ts_hashmap.c

    Shallow embedding of [initmap], [get], [put], [del], [printmap] and
    [freeMap] of src/ts_hashmap.c, the properties of its specification and
    further properties of the code.

    The single global mutex serialises every call, so a call is modelled as
    one atomic transition on the map.  A bucket chain (entries linked by
    [next]) is a list of entries; the table is a list of chains indexed by
    bucket.  C behaviour that the standard leaves undefined (an index outside
    the table, a division by zero, a signed overflow) is an explicit fault. *)

From stdpp Require Import base numbers list strings.
From Stdlib Require Import Ascii DecimalString.

Local Open Scope Z_scope.

(** ** C integers *)

Module CInt.

Definition INT_MAX : Z := 2147483647.
Definition INT_MIN : Z := -2147483648.
Definition UINT_MODULUS : Z := 4294967296.

Definition in_int (z : Z) : Prop := INT_MIN <= z <= INT_MAX.

(** [(unsigned int) z] *)
Definition to_unsigned (z : Z) : Z := z mod UINT_MODULUS.

(** an [unsigned int] stored into an [int] *)
Definition to_signed (u : Z) : Z :=
  if u <=? INT_MAX then u else u - UINT_MODULUS.

End CInt.

Import CInt.

(** ** Faults and the error monad *)

Inductive fault : Type :=
| DivisionByZero
| SignedOverflow
| OutOfBounds.

Inductive res (A : Type) : Type :=
| Ok (a : A)
| Ub (f : fault).

Arguments Ok {A} a.
Arguments Ub {A} f.

#[global] Instance res_ret : MRet res := fun A a => Ok a.
#[global] Instance res_bind : MBind res := fun A B k r =>
  match r with
  | Ok a => k a
  | Ub f => Ub f
  end.

(** [x++] on an [int] *)
Definition int_incr (x : Z) : res Z :=
  if x <? INT_MAX then Ok (x + 1) else Ub SignedOverflow.

(** [x--] on an [int] *)
Definition int_decr (x : Z) : res Z :=
  if INT_MIN <? x then Ok (x - 1) else Ub SignedOverflow.

(** [a % b] on two [int]: the remainder of the division truncated towards
    zero, which has the sign of [a] *)
Definition int_rem (a b : Z) : res Z :=
  if b =? 0 then Ub DivisionByZero
  else if (a =? INT_MIN) && (b =? -1) then Ub SignedOverflow
  else Ok (Z.rem a b).

(** [a % b] on two [unsigned int] *)
Definition uint_rem (a b : Z) : res Z :=
  if b =? 0 then Ub DivisionByZero else Ok (a mod b).

(** ** The data of ts_hashmap.h, as ts_hashmap.c uses it *)

(** Modelled from the spec: the struct [ts_entry_t] of ts_hashmap.h, a
    header that is not among the sources.  An entry has an integer key, an
    integer value and a link to the next entry of its chain; the link is the
    tail of the list that holds the entry. *)
Record ts_entry_t : Type := mk_entry {
  key : Z;
  value : Z
}.

(** Modelled from the spec: the struct [ts_hashmap_t] of ts_hashmap.h.  The
    table of bucket heads and three integers, [int] as the parameter of
    [initmap] that sets the capacity. *)
Record ts_hashmap_t : Type := mk_hashmap {
  table : list (list ts_entry_t);
  numOps : Z;
  capacity : Z;
  size : Z
}.

(** [map->table[index]] *)
Definition table_at (tbl : list (list ts_entry_t)) (index : Z)
  : res (list ts_entry_t) :=
  if index <? 0 then Ub OutOfBounds
  else match tbl !! Z.to_nat index with
       | Some entry => Ok entry
       | None => Ub OutOfBounds
       end.

(** [key % map->capacity], the index of [get] and [del] *)
Definition signed_index (k c : Z) : res Z := int_rem k c.

(** [u_key % map->capacity] with [u_key = (unsigned int) key], the index of
    [put]: the [int] capacity is converted to [unsigned int] for the
    division, and the result is stored into an [int] *)
Definition unsigned_index (k c : Z) : res Z :=
  u ← uint_rem (to_unsigned k) (to_unsigned c);
  Ok (to_signed u).

(** ** initmap *)

Definition initmap (capacity : Z) : ts_hashmap_t :=
  {| table := replicate (Z.to_nat capacity) [];
     numOps := 0;
     capacity := capacity;
     size := 0 |}.

(** ** get *)

Fixpoint get_loop (entry : list ts_entry_t) (k : Z) : Z :=
  match entry with
  | [] => INT_MAX
  | e :: next => if key e =? k then value e else get_loop next k
  end.

Definition get (map : ts_hashmap_t) (k : Z) : res (Z * ts_hashmap_t) :=
  ops ← int_incr (numOps map);
  index ← signed_index k (capacity map);
  entry ← table_at (table map) index;
  Ok (get_loop entry k,
      {| table := table map; numOps := ops;
         capacity := capacity map; size := size map |}).

(** ** put *)

Definition new_entry (k v : Z) : ts_entry_t := {| key := k; value := v |}.

(** The loop [while (entry->next != NULL)] and the append after it, on the
    chain [entry :: next].  The result is the old value when an entry was
    overwritten, [None] when a new entry was appended, and the chain after
    the call. *)
Fixpoint put_loop (entry : ts_entry_t) (next : list ts_entry_t) (k v : Z)
  : option Z * list ts_entry_t :=
  match next with
  | [] => (None, [entry; new_entry k v])
  | n :: next' =>
      if key entry =? k
      then (Some (value entry), {| key := key entry; value := v |} :: next)
      else let '(old, chain) := put_loop n next' k v in (old, entry :: chain)
  end.

Definition put (map : ts_hashmap_t) (k v : Z) : res (Z * ts_hashmap_t) :=
  ops ← int_incr (numOps map);
  index ← unsigned_index k (capacity map);
  entry ← table_at (table map) index;
  match entry with
  | [] =>
      sz ← int_incr (size map);
      Ok (INT_MAX,
          {| table := <[Z.to_nat index := [new_entry k v]]> (table map);
             numOps := ops; capacity := capacity map; size := sz |})
  | e :: next =>
      match put_loop e next k v with
      | (Some old_value, chain) =>
          Ok (old_value,
              {| table := <[Z.to_nat index := chain]> (table map);
                 numOps := ops; capacity := capacity map; size := size map |})
      | (None, chain) =>
          sz ← int_incr (size map);
          Ok (INT_MAX,
              {| table := <[Z.to_nat index := chain]> (table map);
                 numOps := ops; capacity := capacity map; size := sz |})
      end
  end.

(** ** del *)

(** The loop of [del]: the value of the first entry whose key is [k] and the
    chain without that entry, or [None] when no entry has key [k]. *)
Fixpoint del_loop (entry : list ts_entry_t) (k : Z)
  : option (Z * list ts_entry_t) :=
  match entry with
  | [] => None
  | e :: next =>
      if key e =? k then Some (value e, next)
      else match del_loop next k with
           | Some (v, chain) => Some (v, e :: chain)
           | None => None
           end
  end.

Definition del (map : ts_hashmap_t) (k : Z) : res (Z * ts_hashmap_t) :=
  ops ← int_incr (numOps map);
  index ← signed_index k (capacity map);
  entry ← table_at (table map) index;
  match del_loop entry k with
  | Some (v, chain) =>
      sz ← int_decr (size map);
      Ok (v,
          {| table := <[Z.to_nat index := chain]> (table map);
             numOps := ops; capacity := capacity map; size := sz |})
  | None =>
      Ok (INT_MAX,
          {| table := table map; numOps := ops;
             capacity := capacity map; size := size map |})
  end.

(** ** Sequences of calls *)

Inductive call : Type :=
| Get (k : Z)
| Put (k v : Z)
| Del (k : Z).

Definition step (map : ts_hashmap_t) (c : call) : res (Z * ts_hashmap_t) :=
  match c with
  | Get k => get map k
  | Put k v => put map k v
  | Del k => del map k
  end.

(** The values returned by the calls, in order, and the map after them. *)
Fixpoint run (map : ts_hashmap_t) (calls : list call)
  : res (list Z * ts_hashmap_t) :=
  match calls with
  | [] => Ok ([], map)
  | c :: calls' =>
      '(r, map') ← step map c;
      '(rs, map'') ← run map' calls';
      Ok (r :: rs, map'')
  end.

(** The keys held by a chain, in chain order. *)
Definition keys (chain : list ts_entry_t) : list Z := key <$> chain.


(** ** Well-formed maps and calls *)

(** A map as [initmap] builds it and the calls keep it: a positive capacity,
    one bucket per index below it, and [size] counting the entries of the
    table. *)
Record map_inv (map : ts_hashmap_t) : Prop := {
  inv_capacity : 0 < capacity map <= INT_MAX;
  inv_table : length (table map) = Z.to_nat (capacity map);
  inv_size : size map = Z.of_nat (length (concat (table map)));
  inv_numOps : size map <= numOps map
}.

(** The calls whose bucket index is inside the table whatever the capacity:
    [get] and [del] need a key that is not negative, [put] takes any key. *)
Definition call_in_range (c : call) : Prop :=
  match c with
  | Get k | Del k => 0 <= k
  | Put _ _ => True
  end.

(** Every entry sits in the bucket that [put] computes for its key. *)
Definition well_placed (map : ts_hashmap_t) : Prop :=
  ∀ (i : nat) (chain : list ts_entry_t) (e : ts_entry_t),
    table map !! i = Some chain → e ∈ chain →
    to_unsigned (key e) mod capacity map = Z.of_nat i.

(** No chain holds a key twice. *)
Definition unique_keys (map : ts_hashmap_t) : Prop :=
  ∀ (i : nat) (chain : list ts_entry_t),
    table map !! i = Some chain → NoDup (keys chain).

(** ** printmap *)

(** What [printf("%d", z)] writes. *)
Definition print_int (z : Z) : string := NilZero.string_of_int (Z.to_int z).

Definition newline : string := String "010"%char "".

(** The loop over one chain: [(key,value)] for each entry, with [" -> "]
    after every entry that has a successor. *)
Fixpoint print_chain (entry : list ts_entry_t) : string :=
  match entry with
  | [] => ""
  | e :: next =>
      "(" +:+ print_int (key e) +:+ "," +:+ print_int (value e) +:+ ")"
      +:+ match next with [] => "" | _ :: _ => " -> " end
      +:+ print_chain next
  end.

(** The loop over the buckets, on the indices that are left to visit. *)
Fixpoint printmap_loop (tbl : list (list ts_entry_t)) (indices : list Z)
  : res string :=
  match indices with
  | [] => Ok ""
  | i :: indices' =>
      entry ← table_at tbl i;
      out ← printmap_loop tbl indices';
      Ok ("[" +:+ print_int i +:+ "] -> " +:+ print_chain entry
          +:+ newline +:+ out)
  end.

(** The text that [printmap] writes to the standard output. *)
Definition printmap (map : ts_hashmap_t) : res string :=
  printmap_loop (table map) (seqZ 0 (capacity map)).

(** The number of times a character occurs in a text. *)
Fixpoint count_char (c : ascii) (s : string) : nat :=
  match s with
  | EmptyString => 0%nat
  | String a s' => ((if Ascii.eqb c a then 1 else 0) + count_char c s')%nat
  end.

(** ** freeMap *)

(** What [freeMap] releases, in the order of the calls. *)
Inductive release : Type :=
| FreeEntry (e : ts_entry_t)
| FreeTable
| FreeMap
| MutexDestroy.

(** The loop over the buckets: the entries passed to [free], chain after
    chain. *)
Fixpoint freeMap_loop (tbl : list (list ts_entry_t)) (indices : list Z)
  : res (list ts_entry_t) :=
  match indices with
  | [] => Ok []
  | i :: indices' =>
      entry ← table_at tbl i;
      freed ← freeMap_loop tbl indices';
      Ok (entry ++ freed)
  end.

Definition freeMap (map : ts_hashmap_t) : res (list release) :=
  freed ← freeMap_loop (table map) (seqZ 0 (capacity map));
  Ok ((FreeEntry <$> freed) ++ [FreeTable; FreeMap; MutexDestroy]).

(** * Properties *)

(** ** The error monad and the integer operations *)

Lemma bind_Ok {A B : Type} (r : res A) (k : A → res B) (b : B) :
  (r ≫= k) = Ok b → ∃ a, r = Ok a ∧ k a = Ok b.
Proof.
  destruct r as [a|f]; cbn; [eauto | discriminate].
Qed.

Lemma int_incr_Ok (x y : Z) : int_incr x = Ok y → x < INT_MAX ∧ y = x + 1.
Proof.
  unfold int_incr. destruct (Z.ltb_spec x INT_MAX); [|discriminate].
  intros [= <-]. done.
Qed.

Lemma int_incr_lt (x : Z) : x < INT_MAX → int_incr x = Ok (x + 1).
Proof.
  intros Hx. unfold int_incr. by destruct (Z.ltb_spec x INT_MAX); [|lia].
Qed.

Lemma int_decr_Ok (x y : Z) : int_decr x = Ok y → INT_MIN < x ∧ y = x - 1.
Proof.
  unfold int_decr. destruct (Z.ltb_spec INT_MIN x); [|discriminate].
  intros [= <-]. done.
Qed.

Lemma int_decr_gt (x : Z) : INT_MIN < x → int_decr x = Ok (x - 1).
Proof.
  intros Hx. unfold int_decr. by destruct (Z.ltb_spec INT_MIN x); [|lia].
Qed.

Lemma table_at_Ok (tbl : list (list ts_entry_t)) (index : Z)
    (entry : list ts_entry_t) :
  table_at tbl index = Ok entry ↔
  0 <= index ∧ tbl !! Z.to_nat index = Some entry.
Proof.
  unfold table_at. destruct (Z.ltb_spec index 0).
  - split; [discriminate | lia].
  - destruct (tbl !! Z.to_nat index) as [c|]; split.
    + by intros [= ->].
    + by intros [_ [= ->]].
    + discriminate.
    + by intros [_ ?].
Qed.

Lemma Ok_inj {A : Type} (a b : A) : Ok a = Ok b → a = b.
Proof. by intros [= ->]. Qed.

(** Unfolds the monadic body of a call whose result is known to be [Ok]. *)
Ltac res_inv H :=
  repeat match type of H with
  | (_ ≫= _) = Ok _ =>
      let a := fresh "a" in
      let Ha := fresh "Ha" in
      apply bind_Ok in H as (a & Ha & H)
  | Ok _ = Ok _ => apply Ok_inj in H
  | Ub _ = Ok _ => discriminate H
  end.

(** ** The bucket index *)

Lemma to_unsigned_nonneg (k : Z) : 0 <= k <= INT_MAX → to_unsigned k = k.
Proof.
  intros Hk. unfold to_unsigned, UINT_MODULUS, INT_MAX in *.
  apply Z.mod_small. lia.
Qed.

Lemma to_unsigned_neg (k : Z) :
  INT_MIN <= k < 0 → to_unsigned k = k + UINT_MODULUS.
Proof.
  intros Hk. unfold to_unsigned, UINT_MODULUS, INT_MIN in *.
  symmetry. apply (Z.mod_unique_pos _ _ (-1)); lia.
Qed.

Lemma signed_index_pos (k c : Z) : 0 < c → signed_index k c = Ok (Z.rem k c).
Proof.
  intros Hc. unfold signed_index, int_rem.
  destruct (Z.eqb_spec c 0); [lia|].
  destruct (Z.eqb_spec c (-1)); [lia|].
  by rewrite andb_false_r.
Qed.

Lemma unsigned_index_pos (k c : Z) :
  0 < c <= INT_MAX → unsigned_index k c = Ok (to_unsigned k mod c).
Proof.
  intros Hc. unfold unsigned_index, uint_rem.
  rewrite (to_unsigned_nonneg c) by lia.
  destruct (Z.eqb_spec c 0); [lia|]. cbn.
  unfold to_signed.
  pose proof (Z.mod_pos_bound (to_unsigned k) c) as Hb.
  destruct (Z.leb_spec (to_unsigned k mod c) INT_MAX); [done | lia].
Qed.

Lemma index_agree (k c : Z) :
  0 <= k <= INT_MAX → 0 < c → Z.rem k c = to_unsigned k mod c.
Proof.
  intros Hk Hc. rewrite to_unsigned_nonneg by done.
  apply Z.rem_mod_nonneg; lia.
Qed.

Lemma unsigned_index_bounds (k c i : Z) :
  0 < c <= INT_MAX → unsigned_index k c = Ok i → 0 <= i < c.
Proof.
  intros Hc. rewrite unsigned_index_pos by done. intros [= <-].
  apply Z.mod_pos_bound. lia.
Qed.

Lemma signed_index_bounds (k c i : Z) :
  0 <= k → 0 < c → signed_index k c = Ok i → 0 <= i < c.
Proof.
  intros Hk Hc. rewrite signed_index_pos by done. intros [= <-].
  rewrite Z.rem_mod_nonneg by lia. apply Z.mod_pos_bound. lia.
Qed.

(** ** The loops over one chain *)

Section Chains.

Implicit Types (chain next l : list ts_entry_t) (e x : ts_entry_t).
Implicit Types (k v : Z).

(** [get] returns the value of the first entry whose key matches. *)
Lemma get_loop_absent chain k : k ∉ keys chain → get_loop chain k = INT_MAX.
Proof.
  induction chain as [|e next IH]; cbn; [done|].
  intros Hk. apply not_elem_of_cons in Hk as [Hne Hk].
  destruct (Z.eqb_spec (key e) k); [congruence | auto].
Qed.

Lemma get_loop_first l1 x l2 k :
  k ∉ keys l1 → key x = k → get_loop (l1 ++ x :: l2) k = value x.
Proof.
  intros Hk Hx. induction l1 as [|e l1 IH]; cbn.
  - by rewrite Hx, Z.eqb_refl.
  - cbn in Hk. apply not_elem_of_cons in Hk as [Hne Hk].
    destruct (Z.eqb_spec (key e) k); [congruence | auto].
Qed.

(** [put] overwrites the first matching entry among those that have a
    successor... *)
Lemma put_loop_overwrite e next l1 x l2 k v :
  e :: next = l1 ++ x :: l2 → l2 ≠ [] → k ∉ keys l1 → key x = k →
  put_loop e next k v
  = (Some (value x), l1 ++ {| key := key x; value := v |} :: l2).
Proof.
  revert e next. induction l1 as [|y l1 IH]; intros e next Heq Hl2 Hk Hx.
  - cbn in Heq. injection Heq as <- ->.
    destruct l2 as [|n l2]; [done|]. cbn.
    by rewrite Hx, Z.eqb_refl.
  - cbn in Heq. injection Heq as <- ->.
    cbn in Hk. apply not_elem_of_cons in Hk as [Hne Hk].
    destruct l1 as [|z l1]; cbn.
    + destruct (Z.eqb_spec (key e) k); [congruence|].
      by rewrite (IH x l2).
    + destruct (Z.eqb_spec (key e) k); [congruence|].
      by rewrite (IH z (l1 ++ x :: l2)).
Qed.

(** ... and appends a new entry otherwise: the key of the last entry of
    the chain is never compared. *)
Lemma put_loop_append e next l1 x k v :
  e :: next = l1 ++ [x] → k ∉ keys l1 →
  put_loop e next k v = (None, l1 ++ [x; new_entry k v]).
Proof.
  revert e next. induction l1 as [|y l1 IH]; intros e next Heq Hk.
  - cbn in Heq. by injection Heq as -> ->.
  - cbn in Heq. injection Heq as <- ->.
    cbn in Hk. apply not_elem_of_cons in Hk as [Hne Hk].
    destruct l1 as [|z l1]; cbn.
    + by destruct (Z.eqb_spec (key e) k); [congruence|].
    + destruct (Z.eqb_spec (key e) k); [congruence|].
      by rewrite (IH z (l1 ++ [x])).
Qed.

Lemma put_loop_length e next k v :
  length (put_loop e next k v).2
  = match (put_loop e next k v).1 with
    | Some _ => S (length next)
    | None => S (S (length next))
    end.
Proof.
  revert e. induction next as [|n next IH]; intros e; cbn; [done|].
  destruct (key e =? k); cbn; [done|].
  specialize (IH n). destruct (put_loop n next k v) as [[old|] chain];
    cbn in *; by rewrite IH.
Qed.

(** [del] unlinks the first matching entry. *)
Lemma del_loop_absent chain k : k ∉ keys chain → del_loop chain k = None.
Proof.
  induction chain as [|e next IH]; cbn; [done|].
  intros Hk. apply not_elem_of_cons in Hk as [Hne Hk].
  destruct (Z.eqb_spec (key e) k); [congruence|]. by rewrite IH.
Qed.

Lemma del_loop_first l1 x l2 k :
  k ∉ keys l1 → key x = k →
  del_loop (l1 ++ x :: l2) k = Some (value x, l1 ++ l2).
Proof.
  intros Hk Hx. induction l1 as [|e l1 IH]; cbn.
  - by rewrite Hx, Z.eqb_refl.
  - cbn in Hk. apply not_elem_of_cons in Hk as [Hne Hk].
    destruct (Z.eqb_spec (key e) k); [congruence|]. by rewrite IH.
Qed.

Lemma del_loop_Some chain k v chain' :
  del_loop chain k = Some (v, chain') →
  ∃ l1 x l2, chain = l1 ++ x :: l2 ∧ chain' = l1 ++ l2 ∧
             (k ∉ keys l1) ∧ key x = k ∧ value x = v.
Proof.
  revert chain'. induction chain as [|e next IH]; cbn; [done|].
  intros chain'. destruct (Z.eqb_spec (key e) k) as [He|He].
  - intros [= <- <-]. exists [], e, next. repeat split; try done.
    cbn. apply not_elem_of_nil.
  - destruct (del_loop next k) as [[w c]|]; [|done].
    intros [= <- <-]. destruct (IH c eq_refl) as (l1 & x & l2 & -> & -> & ? & ? & ?).
    exists (e :: l1), x, l2. repeat split; try done.
    cbn. apply not_elem_of_cons. split; [congruence | done].
Qed.

Lemma del_loop_None chain k : del_loop chain k = None → k ∉ keys chain.
Proof.
  induction chain as [|e next IH]; cbn; [intros _; apply not_elem_of_nil|].
  destruct (Z.eqb_spec (key e) k) as [He|He]; [done|].
  destruct (del_loop next k) as [[w c]|] eqn:Hd; [done|].
  intros _. apply not_elem_of_cons. split; [congruence | auto].
Qed.

(** On a chain without duplicate keys, [del] returns what [get] returns
    and leaves no entry for the key. *)
Lemma del_loop_unique chain k v chain' :
  NoDup (keys chain) → del_loop chain k = Some (v, chain') →
  get_loop chain k = v ∧ get_loop chain' k = INT_MAX ∧
  NoDup (keys chain') ∧ S (length chain') = length chain.
Proof.
  intros Hnd Hdel.
  apply del_loop_Some in Hdel as (l1 & x & l2 & -> & -> & Hk & Hx & Hv).
  unfold keys in Hnd. rewrite fmap_app, fmap_cons in Hnd.
  apply NoDup_app in Hnd as (Hnd1 & Hdisj & Hnd2).
  apply NoDup_cons in Hnd2 as [Hx2 Hnd2].
  repeat split.
  - by rewrite get_loop_first.
  - apply get_loop_absent. unfold keys. rewrite fmap_app.
    rewrite not_elem_of_app. split; [done | congruence].
  - unfold keys. rewrite fmap_app. apply NoDup_app. repeat split; try done.
    intros y Hy1 Hy2. apply (Hdisj y Hy1). by right.
  - rewrite !length_app. cbn. lia.
Qed.

End Chains.

(** ** What one call changes *)

(** [get] returns what its loop finds in the bucket of the signed index and
    changes nothing but the operation counter. *)
Lemma get_Ok (map : ts_hashmap_t) (k r : Z) (map' : ts_hashmap_t) :
  get map k = Ok (r, map') →
  ∃ index entry,
    signed_index k (capacity map) = Ok index ∧
    table_at (table map) index = Ok entry ∧
    r = get_loop entry k ∧
    map' = {| table := table map; numOps := numOps map + 1;
              capacity := capacity map; size := size map |}.
Proof.
  unfold get. intros H. res_inv H.
  apply int_incr_Ok in Ha as [_ ->].
  exists a0, a1. repeat split; try done; congruence.
Qed.

(** [del] changes at most the bucket of the signed index. *)
Lemma del_Ok (map : ts_hashmap_t) (k r : Z) (map' : ts_hashmap_t) :
  del map k = Ok (r, map') →
  ∃ index entry,
    signed_index k (capacity map) = Ok index ∧
    table_at (table map) index = Ok entry ∧
    match del_loop entry k with
    | Some (v, chain) =>
        r = v ∧
        map' = {| table := <[Z.to_nat index := chain]> (table map);
                  numOps := numOps map + 1;
                  capacity := capacity map; size := size map - 1 |}
    | None =>
        r = INT_MAX ∧
        map' = {| table := table map; numOps := numOps map + 1;
                  capacity := capacity map; size := size map |}
    end.
Proof.
  unfold del. intros H. res_inv H.
  apply int_incr_Ok in Ha as [_ ->].
  exists a0, a1. repeat split; try done.
  destruct (del_loop a1 k) as [[v chain]|]; res_inv H.
  - apply int_decr_Ok in Ha as [_ ->]. split; congruence.
  - split; congruence.
Qed.

(** [put] changes the bucket of the unsigned index, and only that one. *)
Lemma put_Ok (map : ts_hashmap_t) (k v r : Z) (map' : ts_hashmap_t) :
  put map k v = Ok (r, map') →
  ∃ index entry chain,
    unsigned_index k (capacity map) = Ok index ∧
    table_at (table map) index = Ok entry ∧
    table map' = <[Z.to_nat index := chain]> (table map) ∧
    numOps map' = numOps map + 1 ∧
    capacity map' = capacity map ∧
    match entry with
    | [] => chain = [new_entry k v] ∧ r = INT_MAX ∧ size map' = size map + 1
    | e :: next =>
        chain = (put_loop e next k v).2 ∧
        match (put_loop e next k v).1 with
        | Some old_value => r = old_value ∧ size map' = size map
        | None => r = INT_MAX ∧ size map' = size map + 1
        end
    end.
Proof.
  unfold put. intros H. res_inv H.
  apply int_incr_Ok in Ha as [_ ->].
  destruct a1 as [|e next].
  - res_inv H. apply int_incr_Ok in Ha as [_ ->].
    exists a0, [], [new_entry k v]. injection H as <- <-. by cbn.
  - destruct (put_loop e next k v) as [[old|] chain] eqn:Hloop.
    + res_inv H. exists a0, (e :: next), chain.
      injection H as <- <-. by rewrite Hloop.
    + res_inv H. apply int_incr_Ok in Ha as [_ ->].
      exists a0, (e :: next), chain.
      injection H as <- <-. by rewrite Hloop.
Qed.

(** Every completed call adds one to the operation counter, keeps the
    capacity and the number of buckets, and moves [size] by at most one. *)
Lemma step_frame (map : ts_hashmap_t) (c : call) (r : Z) (map' : ts_hashmap_t) :
  step map c = Ok (r, map') →
  numOps map' = numOps map + 1 ∧
  capacity map' = capacity map ∧
  length (table map') = length (table map) ∧
  size map - 1 <= size map' <= size map + 1.
Proof.
  destruct c as [k|k v|k]; cbn; intros H.
  - apply get_Ok in H as (i & entry & _ & _ & _ & ->). cbn.
    repeat split; lia.
  - apply put_Ok in H as (i & entry & chain & _ & _ & -> & -> & -> & H).
    rewrite length_insert. repeat split.
    + destruct entry as [|e next]; [lia|].
      destruct H as [_ H]. destruct (put_loop e next k v).1; lia.
    + destruct entry as [|e next]; [lia|].
      destruct H as [_ H]. destruct (put_loop e next k v).1; lia.
  - apply del_Ok in H as (i & entry & _ & _ & H).
    destruct (del_loop entry k) as [[w chain]|]; destruct H as [_ ->]; cbn;
      rewrite ?length_insert; repeat split; lia.
Qed.

Lemma run_frame (calls : list call) (map : ts_hashmap_t) (rs : list Z)
    (map' : ts_hashmap_t) :
  run map calls = Ok (rs, map') →
  numOps map' = numOps map + Z.of_nat (length calls) ∧
  length rs = length calls ∧
  capacity map' = capacity map ∧
  length (table map') = length (table map).
Proof.
  revert map rs. induction calls as [|c calls IH]; intros map rs; cbn.
  - intros [= <- <-]. repeat split; lia.
  - intros H. apply bind_Ok in H as ([r m1] & Hstep & H).
    apply bind_Ok in H as ([rs' m2] & Hrun & H). injection H as <- <-.
    apply step_frame in Hstep as (Hn & Hc & Hl & _).
    apply IH in Hrun as (Hn' & Hr & Hc' & Hl'). cbn.
    repeat split; [lia | lia | congruence | congruence].
Qed.

(** ** The invariant of a map and the calls that complete *)

Lemma concat_insert_length (tbl : list (list ts_entry_t)) (i : nat)
    (old new : list ts_entry_t) :
  tbl !! i = Some old →
  (length (concat (<[i := new]> tbl)) + length old
   = length (concat tbl) + length new)%nat.
Proof.
  intros Hi. pose proof (lookup_lt_Some _ _ _ Hi) as Hlt.
  rewrite insert_take_drop by done.
  rewrite <- (take_drop_middle tbl i old Hi) at 3.
  rewrite !concat_app, !concat_cons, !length_app. lia.
Qed.

Lemma initmap_inv (c : Z) : 0 < c <= INT_MAX → map_inv (initmap c).
Proof.
  intros Hc. split; cbn [initmap table capacity size numOps].
  - done.
  - apply length_replicate.
  - induction (Z.to_nat c) as [|n IH]; [done | exact IH].
  - done.
Qed.

Lemma step_inv (map : ts_hashmap_t) (c : call) (r : Z) (map' : ts_hashmap_t) :
  map_inv map → step map c = Ok (r, map') → map_inv map'.
Proof.
  intros [Hc Ht Hs Hn] H.
  pose proof (step_frame _ _ _ _ H) as (Hn' & Hc' & Ht' & _).
  destruct c as [k|k v|k]; cbn in H.
  - apply get_Ok in H as (i & entry & _ & _ & _ & ->).
    split; cbn; [done | done | done | lia].
  - apply put_Ok in H as (i & entry & chain & _ & Hat & Htbl & _ & _ & H).
    apply table_at_Ok in Hat as [_ Hat].
    pose proof (concat_insert_length _ _ _ chain Hat) as Hlen.
    rewrite <- Htbl in Hlen.
    destruct entry as [|e next].
    + destruct H as (-> & _ & Hsz). cbn in Hlen.
      split; [congruence | congruence | lia | lia].
    + destruct H as [-> H]. rewrite put_loop_length in Hlen. cbn in Hlen.
      destruct (put_loop e next k v).1; destruct H as [_ Hsz];
        (split; [congruence | congruence | lia | lia]).
  - apply del_Ok in H as (i & entry & _ & Hat & H).
    apply table_at_Ok in Hat as [_ Hat].
    destruct (del_loop entry k) as [[w chain]|] eqn:Hdel; destruct H as [_ ->].
    + pose proof (concat_insert_length _ _ _ chain Hat) as Hlen.
      apply del_loop_Some in Hdel as (l1 & x & l2 & -> & -> & _).
      rewrite !length_app in Hlen. cbn in Hlen.
      split; cbn in *; [done | congruence | lia | lia].
    + split; cbn; [done | done | done | lia].
Qed.

Lemma table_at_in_range (map : ts_hashmap_t) (i : Z) :
  map_inv map → 0 <= i < capacity map →
  ∃ entry, table_at (table map) i = Ok entry.
Proof.
  intros [Hc Ht _ _] Hi.
  destruct (lookup_lt_is_Some_2 (table map) (Z.to_nat i)) as [entry He];
    [lia|].
  exists entry. apply table_at_Ok. split; [lia | done].
Qed.

Lemma step_total (map : ts_hashmap_t) (c : call) :
  map_inv map → numOps map < INT_MAX → call_in_range c →
  ∃ r map', step map c = Ok (r, map').
Proof.
  intros Hinv Hops Hk. pose proof Hinv as [Hc Ht Hs Hn].
  destruct c as [k|k v|k]; cbn in *.
  - unfold get. rewrite (int_incr_lt (numOps map)) by done. cbn.
    rewrite signed_index_pos by lia. cbn.
    assert (0 <= Z.rem k (capacity map) < capacity map) as Hi.
    { rewrite Z.rem_mod_nonneg by lia. apply Z.mod_pos_bound. lia. }
    destruct (table_at_in_range map _ Hinv Hi) as [entry ->]. cbn. eauto.
  - unfold put. rewrite (int_incr_lt (numOps map)) by done. cbn.
    rewrite unsigned_index_pos by lia. cbn.
    assert (0 <= to_unsigned k mod capacity map < capacity map) as Hi.
    { apply Z.mod_pos_bound. lia. }
    destruct (table_at_in_range map _ Hinv Hi) as [entry ->]. cbn.
    destruct entry as [|e next].
    + rewrite int_incr_lt by lia. cbn. eauto.
    + destruct (put_loop e next k v) as [[old|] chain]; [eauto|].
      rewrite int_incr_lt by lia. cbn. eauto.
  - unfold del. rewrite (int_incr_lt (numOps map)) by done. cbn.
    rewrite signed_index_pos by lia. cbn.
    assert (0 <= Z.rem k (capacity map) < capacity map) as Hi.
    { rewrite Z.rem_mod_nonneg by lia. apply Z.mod_pos_bound. lia. }
    destruct (table_at_in_range map _ Hinv Hi) as [entry ->]. cbn.
    destruct (del_loop entry k) as [[w chain]|]; [|eauto].
    rewrite int_decr_gt by (unfold INT_MIN; lia). cbn. eauto.
Qed.

(** A sequence of calls in range completes as long as the operation counter
    does not overflow. *)
Lemma run_total (calls : list call) (map : ts_hashmap_t) :
  map_inv map → numOps map + Z.of_nat (length calls) <= INT_MAX →
  Forall call_in_range calls →
  ∃ rs map', run map calls = Ok (rs, map') ∧ map_inv map'.
Proof.
  revert map. induction calls as [|c calls IH]; intros map Hinv Hops Hall.
  - cbn. eauto.
  - apply Forall_cons in Hall as [Hc Hall]. cbn [length] in Hops.
    destruct (step_total map c Hinv) as (r & m1 & Hstep); [lia | done |].
    pose proof (step_inv _ _ _ _ Hinv Hstep) as Hinv1.
    pose proof (step_frame _ _ _ _ Hstep) as (Hn & _).
    destruct (IH m1 Hinv1) as (rs & m2 & Hrun & Hinv2); [lia | done |].
    exists (r :: rs), m2. cbn. rewrite Hstep. cbn. rewrite Hrun. by cbn.
Qed.

(** ** Calls on a key that its bucket does not hold *)

Lemma put_loop_absent (e : ts_entry_t) (next : list ts_entry_t) (k v : Z) :
  k ∉ keys (e :: next) →
  put_loop e next k v = (None, (e :: next) ++ [new_entry k v]).
Proof.
  revert e. induction next as [|n next IH]; intros e Hk; [done|].
  cbn in Hk. apply not_elem_of_cons in Hk as [Hne Hk]. cbn.
  destruct (Z.eqb_spec (key e) k); [congruence|].
  by rewrite (IH n Hk).
Qed.

(** The first [put] of a key appends an entry to the bucket, returns
    [INT_MAX] and adds one to [size]. *)
Lemma put_absent (map : ts_hashmap_t) (k v index : Z)
    (entry : list ts_entry_t) :
  unsigned_index k (capacity map) = Ok index →
  table_at (table map) index = Ok entry →
  k ∉ keys entry →
  numOps map < INT_MAX → size map < INT_MAX →
  put map k v
  = Ok (INT_MAX,
        {| table := <[Z.to_nat index := entry ++ [new_entry k v]]> (table map);
           numOps := numOps map + 1;
           capacity := capacity map;
           size := size map + 1 |}).
Proof.
  intros Hi Hat Hk Hops Hsz. unfold put.
  rewrite (int_incr_lt (numOps map)) by done. cbn. rewrite Hi. cbn.
  rewrite Hat. cbn. destruct entry as [|e next].
  - by rewrite int_incr_lt.
  - rewrite put_loop_absent by done. by rewrite int_incr_lt.
Qed.

(** A [get] of that key right after the [put] returns the value, when the
    key is not negative. *)
Lemma put_absent_get (map : ts_hashmap_t) (k v : Z) :
  map_inv map → 0 <= k <= INT_MAX →
  (∀ entry, table_at (table map) (Z.rem k (capacity map)) = Ok entry →
            k ∉ keys entry) →
  numOps map + 2 <= INT_MAX →
  ∃ map', run map [Put k v; Get k] = Ok ([INT_MAX; v], map').
Proof.
  intros Hinv Hk Habs Hops. pose proof Hinv as [Hc Ht Hs Hn].
  assert (0 <= Z.rem k (capacity map) < capacity map) as Hi.
  { rewrite Z.rem_mod_nonneg by lia. apply Z.mod_pos_bound. lia. }
  destruct (table_at_in_range map _ Hinv Hi) as [entry Hat].
  pose proof (Habs entry Hat) as Hke.
  cbn [run step].
  rewrite (put_absent map k v (Z.rem k (capacity map)) entry);
    [| by rewrite unsigned_index_pos, <- index_agree by lia
     | done | done | lia | lia].
  cbn. unfold get. cbn [numOps capacity table].
  rewrite int_incr_lt by lia. cbn.
  rewrite signed_index_pos by lia. cbn.
  apply table_at_Ok in Hat as [_ Hat].
  assert (table_at
            (<[Z.to_nat (Z.rem k (capacity map)) := entry ++ [new_entry k v]]>
               (table map)) (Z.rem k (capacity map))
          = Ok (entry ++ [new_entry k v])) as ->.
  { apply table_at_Ok. split; [lia|].
    apply list_lookup_insert_eq. by eapply lookup_lt_Some. }
  cbn. rewrite get_loop_first by done. cbn. eauto.
Qed.

(** A [del] that finds no entry changes only the operation counter. *)
Lemma del_absent (map : ts_hashmap_t) (k index : Z) (entry : list ts_entry_t) :
  signed_index k (capacity map) = Ok index →
  table_at (table map) index = Ok entry →
  k ∉ keys entry →
  numOps map < INT_MAX →
  del map k
  = Ok (INT_MAX,
        {| table := table map; numOps := numOps map + 1;
           capacity := capacity map; size := size map |}).
Proof.
  intros Hi Hat Hk Hops. unfold del.
  rewrite int_incr_lt by done. cbn. rewrite Hi. cbn. rewrite Hat. cbn.
  by rewrite del_loop_absent.
Qed.

(** On a bucket that holds the key once, [del] returns its value, takes one
    from [size], and a [get] right after finds nothing. *)
Lemma del_present_unique (map : ts_hashmap_t) (k index : Z)
    (entry : list ts_entry_t) :
  signed_index k (capacity map) = Ok index →
  table_at (table map) index = Ok entry →
  NoDup (keys entry) → k ∈ keys entry →
  numOps map + 2 <= INT_MAX → INT_MIN < size map →
  ∃ map', run map [Del k; Get k] = Ok ([get_loop entry k; INT_MAX], map') ∧
          size map' = size map - 1.
Proof.
  intros Hi Hat Hnd Hin Hops Hsz.
  destruct (del_loop entry k) as [[v chain]|] eqn:Hdel;
    [| by apply del_loop_None in Hdel].
  destruct (del_loop_unique _ _ _ _ Hnd Hdel) as (Hget & Hget' & _ & _).
  cbn [run step]. unfold del.
  rewrite int_incr_lt by lia. cbn. rewrite Hi. cbn. rewrite Hat. cbn.
  rewrite Hdel, int_decr_gt by done. cbn.
  unfold get. cbn [numOps capacity table size].
  rewrite int_incr_lt by lia. cbn. rewrite Hi. cbn.
  apply table_at_Ok in Hat as [Hpos Hat].
  assert (table_at (<[Z.to_nat index := chain]> (table map)) index = Ok chain)
    as ->.
  { apply table_at_Ok. split; [done|].
    apply list_lookup_insert_eq. by eapply lookup_lt_Some. }
  cbn. rewrite Hget, Hget'. eauto.
Qed.

(** After [put], the chain holds an entry with the key and the value. *)
Lemma put_loop_holds (e : ts_entry_t) (next : list ts_entry_t) (k v : Z) :
  new_entry k v ∈ (put_loop e next k v).2.
Proof.
  revert e. induction next as [|n next IH]; intros e; cbn.
  - right. by left.
  - destruct (Z.eqb_spec (key e) k) as [He|He].
    + cbn. rewrite He. by left.
    + specialize (IH n). destruct (put_loop n next k v) as [old chain].
      cbn in *. by right.
Qed.

(** ** Calls on a key that its bucket holds *)

(** [put] overwrites the first entry with the key and returns its value,
    keeping [size], when that entry is not the last one of its chain. *)
Lemma put_overwrite (map : ts_hashmap_t) (k v index : Z)
    (l1 : list ts_entry_t) (x : ts_entry_t) (l2 : list ts_entry_t) :
  unsigned_index k (capacity map) = Ok index →
  table_at (table map) index = Ok (l1 ++ x :: l2) →
  l2 ≠ [] → k ∉ keys l1 → key x = k →
  numOps map < INT_MAX →
  put map k v
  = Ok (value x,
        {| table := <[Z.to_nat index := l1 ++ mk_entry (key x) v :: l2]>
                      (table map);
           numOps := numOps map + 1;
           capacity := capacity map;
           size := size map |}).
Proof.
  intros Hi Hat Hl2 Hk Hx Hops. unfold put.
  rewrite (int_incr_lt (numOps map)) by done. cbn. rewrite Hi. cbn.
  rewrite Hat. cbn.
  destruct (l1 ++ x :: l2) as [|e next] eqn:Heq;
    [by destruct l1|].
  by rewrite (put_loop_overwrite e next l1 x l2 k v).
Qed.

(** When no entry before the last one has the key, [put] appends a new
    entry and adds one to [size], whatever the key of the last entry is:
    also when the last entry has the key. *)
Lemma put_last_not_compared (map : ts_hashmap_t) (k v index : Z)
    (l1 : list ts_entry_t) (x : ts_entry_t) :
  unsigned_index k (capacity map) = Ok index →
  table_at (table map) index = Ok (l1 ++ [x]) →
  k ∉ keys l1 →
  numOps map < INT_MAX → size map < INT_MAX →
  put map k v
  = Ok (INT_MAX,
        {| table := <[Z.to_nat index := l1 ++ [x; new_entry k v]]> (table map);
           numOps := numOps map + 1;
           capacity := capacity map;
           size := size map + 1 |}).
Proof.
  intros Hi Hat Hk Hops Hsz. unfold put.
  rewrite (int_incr_lt (numOps map)) by done. cbn. rewrite Hi. cbn.
  rewrite Hat. cbn.
  destruct (l1 ++ [x]) as [|e next] eqn:Heq;
    [by destruct l1|].
  rewrite (put_loop_append e next l1 x k v) by done.
  by rewrite int_incr_lt.
Qed.

(** * The claims of the specification *)

(** ** Update semantics (C1) *)

(** C1, evaluated where it fails: on a fresh map of capacity 4, [put(1, 20)]
    after [put(1, 10)] does not overwrite the entry of key 1 and does not
    return 10: it returns [INT_MAX], appends a second entry with key 1 and
    raises [size] to 2.  The loop of [put] stops in front of the last entry
    of the chain, whose key is never compared. *)
Theorem put_existing_last_key_appends :
  run (initmap 4) [Put 1 10; Put 1 20]
  = Ok ([INT_MAX; INT_MAX],
        mk_hashmap [[]; [mk_entry 1 10; mk_entry 1 20]; []; []] 2 4 2).
Proof. reflexivity. Qed.

(** ** Uniqueness of keys (C2) *)

(** C2, evaluated where it fails: after [put(1, 10)] and [put(1, 20)] on a
    fresh map of capacity 4, the chain of bucket 1 holds two entries whose
    key is 1. *)
Theorem put_duplicates_key :
  ∃ rs map chain,
    run (initmap 4) [Put 1 10; Put 1 20] = Ok (rs, map) ∧
    table map !! 1%nat = Some chain ∧
    keys chain = [1; 1] ∧
    ¬ NoDup (keys chain).
Proof.
  eexists _, _, _. split; [reflexivity|]. split; [reflexivity|].
  split; [reflexivity|].
  cbn. intros Hnd. apply NoDup_cons in Hnd as [Hnotin _].
  apply Hnotin. by left.
Qed.

(** ** Round trip (C3) *)

(** C3, evaluated where it fails: on a fresh map of capacity 4, [get(1)]
    right after [put(1, 20)] returns 10 when the map already held (1, 10);
    and [get(-1)] right after [put(-1, 10)] indexes the table at -1. *)
Theorem put_then_get_not_roundtrip :
  run (initmap 4) [Put 1 10; Put 1 20; Get 1]
  = Ok ([INT_MAX; INT_MAX; 10],
        mk_hashmap [[]; [mk_entry 1 10; mk_entry 1 20]; []; []] 3 4 2)
  ∧ put (initmap 4) (-1) 10
    = Ok (INT_MAX, mk_hashmap [[]; []; []; [mk_entry (-1) 10]] 1 4 1)
  ∧ run (initmap 4) [Put (-1) 10; Get (-1)] = Ub OutOfBounds.
Proof. repeat split; reflexivity. Qed.

(** ** Signed and unsigned bucket index (C4) *)

(** C4: on a map that satisfies the invariant and whose operation counter
    can still grow, for an [int] key [k] and with [c] the capacity:
    [get] and [del] index the table at [k rem c], the signed remainder, and
    do what their loops find in that bucket, or fault when that index is
    outside the table; [put] indexes it at [(unsigned) k mod c], which is
    always a bucket of the table, returns, puts the entry into that bucket
    and writes no other bucket.  The two indices are equal when [k] is not
    negative, and a key on which they differ is negative, its unsigned
    reading being [k + 2^32]. *)
Theorem index_signed_get_del_unsigned_put (map : ts_hashmap_t) (k : Z) :
  in_int k → map_inv map → numOps map < INT_MAX →
  let c := capacity map in
  signed_index k c = Ok (Z.rem k c) ∧
  unsigned_index k c = Ok (to_unsigned k mod c) ∧
  get map k
  = match table_at (table map) (Z.rem k c) with
    | Ok entry =>
        Ok (get_loop entry k,
            mk_hashmap (table map) (numOps map + 1) c (size map))
    | Ub f => Ub f
    end ∧
  del map k
  = match table_at (table map) (Z.rem k c) with
    | Ok entry =>
        match del_loop entry k with
        | Some (old, chain) =>
            Ok (old,
                mk_hashmap (<[Z.to_nat (Z.rem k c) := chain]> (table map))
                  (numOps map + 1) c (size map - 1))
        | None =>
            Ok (INT_MAX,
                mk_hashmap (table map) (numOps map + 1) c (size map))
        end
    | Ub f => Ub f
    end ∧
  (∀ v, ∃ r map' chain,
     put map k v = Ok (r, map') ∧
     table map' !! Z.to_nat (to_unsigned k mod c) = Some chain ∧
     new_entry k v ∈ chain ∧
     ∀ i, i ≠ Z.to_nat (to_unsigned k mod c) →
          table map' !! i = table map !! i) ∧
  (0 <= k → Z.rem k c = to_unsigned k mod c) ∧
  (Z.rem k c ≠ to_unsigned k mod c →
     k < 0 ∧ to_unsigned k = k + UINT_MODULUS).
Proof.
  intros Hk Hinv Hops c. subst c. pose proof Hinv as [Hc Ht Hsz Hn].
  pose proof (signed_index_pos k (capacity map) ltac:(lia)) as Hs.
  pose proof (unsigned_index_pos k (capacity map) Hc) as Hu.
  split; [done|]. split; [done|].
  split; [|split; [|split; [|split]]].
  - unfold get. rewrite int_incr_lt by done. cbn. rewrite Hs. cbn.
    by destruct (table_at (table map) (Z.rem k (capacity map))).
  - unfold del. rewrite int_incr_lt by done. cbn. rewrite Hs. cbn.
    destruct (table_at (table map) (Z.rem k (capacity map))) as [entry|f];
      cbn; [|done].
    destruct (del_loop entry k) as [[old chain]|]; [|done].
    by rewrite int_decr_gt by (unfold INT_MIN; lia).
  - intros v.
    destruct (step_total map (Put k v) Hinv Hops I) as (r & map' & H).
    cbn [step] in H. exists r, map'.
    pose proof H as Hput.
    apply put_Ok in H as (j & entry & chain & Hj & Hat & -> & _ & _ & H).
    rewrite Hu in Hj. injection Hj as <-.
    apply table_at_Ok in Hat as [_ Hat]. exists chain.
    split; [done|].
    split; [apply list_lookup_insert_eq; by eapply lookup_lt_Some|].
    split.
    + destruct entry as [|e next].
      * destruct H as [-> _]. by left.
      * destruct H as [-> _]. apply put_loop_holds.
    + intros i Hne. by rewrite list_lookup_insert_ne.
  - intros Hpos. apply index_agree; [unfold in_int in Hk|]; lia.
  - intros Hne. assert (k < 0) as Hneg.
    { destruct (Z.lt_ge_cases k 0) as [|Hpos]; [done|].
      exfalso. apply Hne. apply index_agree; [unfold in_int in Hk|]; lia. }
    split; [done|]. apply to_unsigned_neg. unfold in_int in Hk. lia.
Qed.

Lemma index_signed_get_del_unsigned_put_witness :
  in_int 5 ∧ in_int (-1) ∧
  map_inv (mk_hashmap [[]; [mk_entry 1 10; mk_entry 5 20]; []; []] 2 4 2) ∧
  numOps (mk_hashmap [[]; [mk_entry 1 10; mk_entry 5 20]; []; []] 2 4 2)
  < INT_MAX ∧
  get (mk_hashmap [[]; [mk_entry 1 10; mk_entry 5 20]; []; []] 2 4 2) 5
  = Ok (20, mk_hashmap [[]; [mk_entry 1 10; mk_entry 5 20]; []; []] 3 4 2) ∧
  del (mk_hashmap [[]; [mk_entry 1 10; mk_entry 5 20]; []; []] 2 4 2) 5
  = Ok (20, mk_hashmap [[]; [mk_entry 1 10]; []; []] 3 4 1) ∧
  (∃ r map' chain,
     put (mk_hashmap [[]; [mk_entry 1 10; mk_entry 5 20]; []; []] 2 4 2) 5 30
     = Ok (r, map') ∧
     table map' !! 1%nat = Some chain ∧ new_entry 5 30 ∈ chain) ∧
  signed_index (-1) 4 = Ok (-1) ∧ unsigned_index (-1) 4 = Ok 3 ∧
  get (mk_hashmap [[]; [mk_entry 1 10; mk_entry 5 20]; []; []] 2 4 2) (-1)
  = Ub OutOfBounds ∧
  del (mk_hashmap [[]; [mk_entry 1 10; mk_entry 5 20]; []; []] 2 4 2) (-1)
  = Ub OutOfBounds ∧
  (∃ r map' chain,
     put (mk_hashmap [[]; [mk_entry 1 10; mk_entry 5 20]; []; []] 2 4 2)
       (-1) 30
     = Ok (r, map') ∧
     table map' !! 3%nat = Some chain ∧ new_entry (-1) 30 ∈ chain).
Proof.
  assert (in_int 5) as Hk5 by (unfold in_int, INT_MIN, INT_MAX; lia).
  assert (in_int (-1)) as Hk1 by (unfold in_int, INT_MIN, INT_MAX; lia).
  assert (map_inv (mk_hashmap [[]; [mk_entry 1 10; mk_entry 5 20]; []; []]
                     2 4 2)) as Hinv.
  { split; cbn; unfold INT_MAX; lia. }
  assert (numOps (mk_hashmap [[]; [mk_entry 1 10; mk_entry 5 20]; []; []]
                    2 4 2) < INT_MAX) as Hops
    by (cbn; unfold INT_MAX; lia).
  destruct (index_signed_get_del_unsigned_put _ 5 Hk5 Hinv Hops)
    as (_ & _ & Hget5 & Hdel5 & Hput5 & _).
  destruct (index_signed_get_del_unsigned_put _ (-1) Hk1 Hinv Hops)
    as (Hs1 & Hu1 & Hget1 & Hdel1 & Hput1 & _).
  destruct (Hput5 30) as (r5 & m5 & c5 & Hp5 & Hc5 & Hin5 & _).
  destruct (Hput1 30) as (r1 & m1 & c1 & Hp1 & Hc1 & Hin1 & _).
  split; [exact Hk5|]. split; [exact Hk1|]. split; [exact Hinv|].
  split; [exact Hops|]. split; [exact Hget5|]. split; [exact Hdel5|].
  split; [exists r5, m5, c5; split; [exact Hp5|]; split;
            [exact Hc5 | exact Hin5]|].
  split; [exact Hs1|]. split; [exact Hu1|].
  split; [exact Hget1|]. split; [exact Hdel1|].
  exists r1, m1, c1. split; [exact Hp1|]. split; [exact Hc1 | exact Hin1].
Defined.

(** ** Operation counting (C5) *)

(** C5: when a sequence of [get], [put] and [del] calls on a fresh map
    completes, the operation counter is the number of calls, whatever the
    calls found; and any further call that completes adds exactly one to
    it. *)
Theorem numOps_counts_completed_calls (c : Z) (calls : list call)
    (rs : list Z) (map : ts_hashmap_t) :
  run (initmap c) calls = Ok (rs, map) →
  numOps map = Z.of_nat (length calls) ∧
  ∀ next r map', step map next = Ok (r, map') →
                 numOps map' = numOps map + 1.
Proof.
  intros Hrun. split.
  - apply run_frame in Hrun as (Hn & _). cbn in Hn. lia.
  - intros next r map' Hstep. by apply step_frame in Hstep as (Hn & _).
Qed.

Lemma numOps_counts_completed_calls_witness :
  run (initmap 4) [Put 1 10; Get 1; Get 2; Del 3; Del 1; Put 5 0]
  = Ok ([INT_MAX; 10; INT_MAX; INT_MAX; 10; INT_MAX],
        mk_hashmap [[]; [mk_entry 5 0]; []; []] 6 4 1)
  ∧ numOps (mk_hashmap [[]; [mk_entry 5 0]; []; []] 6 4 1) = 6.
Proof.
  assert (run (initmap 4) [Put 1 10; Get 1; Get 2; Del 3; Del 1; Put 5 0]
          = Ok ([INT_MAX; 10; INT_MAX; INT_MAX; 10; INT_MAX],
                mk_hashmap [[]; [mk_entry 5 0]; []; []] 6 4 1)) as Hrun
    by reflexivity.
  split; [exact Hrun|].
  exact (proj1 (numOps_counts_completed_calls _ _ _ _ Hrun)).
Defined.

(** ** Deletion (C6) *)

(** C6, evaluated where it fails: on a fresh map of capacity 4 that
    [put(1, 10)] and [put(1, 20)] have filled, [del(1)] returns 10 and the
    [get(1)] after it returns 20 instead of [INT_MAX]; and [del(-1)] after
    [put(-1, 10)] indexes the table at -1. *)
Theorem del_then_get_finds_duplicate :
  run (initmap 4) [Put 1 10; Put 1 20; Del 1; Get 1]
  = Ok ([INT_MAX; INT_MAX; 10; 20],
        mk_hashmap [[]; [mk_entry 1 20]; []; []] 4 4 1)
  ∧ run (initmap 4) [Put (-1) 10; Del (-1)] = Ub OutOfBounds.
Proof. split; reflexivity. Qed.

(** ** Frame of get (C7) *)

(** C7: a [get] that completes, on a hit or on a miss, leaves the table,
    its entries, [size] and the capacity as they were and adds one to the
    operation counter. *)
Theorem get_changes_only_numOps (map : ts_hashmap_t) (k r : Z)
    (map' : ts_hashmap_t) :
  get map k = Ok (r, map') →
  table map' = table map ∧ size map' = size map ∧
  capacity map' = capacity map ∧ numOps map' = numOps map + 1.
Proof.
  intros H. by apply get_Ok in H as (i & entry & _ & _ & _ & ->).
Qed.

Lemma get_changes_only_numOps_witness :
  get (mk_hashmap [[]; [mk_entry 1 10]; []; []] 1 4 1) 5
  = Ok (INT_MAX, mk_hashmap [[]; [mk_entry 1 10]; []; []] 2 4 1)
  ∧ table (mk_hashmap [[]; [mk_entry 1 10]; []; []] 2 4 1)
    = [[]; [mk_entry 1 10]; []; []].
Proof.
  assert (get (mk_hashmap [[]; [mk_entry 1 10]; []; []] 1 4 1) 5
          = Ok (INT_MAX, mk_hashmap [[]; [mk_entry 1 10]; []; []] 2 4 1))
    as Hget by reflexivity.
  split; [exact Hget|].
  exact (proj1 (get_changes_only_numOps _ _ _ _ Hget)).
Defined.

(** ** The scenario of capacity 4 (C8) *)

(** C8 as the specification states it does not hold: after the six calls
    the operation counter is not 5. *)
Lemma scenario_numOps_not_5 :
  ¬ ∃ map,
      run (initmap 4) [Put 1 10; Put 5 20; Get 1; Get 5; Del 1; Get 1]
      = Ok ([INT_MAX; INT_MAX; 10; 20; 10; INT_MAX], map)
      ∧ size map = 1 ∧ numOps map = 5.
Proof.
  intros (map & Hrun & _ & Hops).
  apply run_frame in Hrun as (Hn & _). cbn in Hn. lia.
Qed.

(** C8, amended: on a fresh map of capacity 4, the calls [put(1,10)],
    [put(5,20)], [get(1)], [get(5)], [del(1)], [get(1)] return [INT_MAX],
    [INT_MAX], 10, 20, 10, [INT_MAX]; afterwards [size] is 1 and the
    operation counter is 6, one for each of the six calls. *)
Theorem scenario_capacity_4 :
  ∃ map,
    run (initmap 4) [Put 1 10; Put 5 20; Get 1; Get 5; Del 1; Get 1]
    = Ok ([INT_MAX; INT_MAX; 10; 20; 10; INT_MAX], map)
    ∧ size map = 1 ∧ numOps map = 6.
Proof. eexists. split; [reflexivity|]. split; reflexivity. Qed.

(** ** The index of get and del on a negative key (C9) *)

(** C9, evaluated where it fails: with capacity 4 and key -1 the index of
    [get] and [del] is -1, below the table, and both calls fault; the index
    of [put] for the same key is 3. *)
Theorem negative_key_index_below_table :
  signed_index (-1) (capacity (initmap 4)) = Ok (-1)
  ∧ get (initmap 4) (-1) = Ub OutOfBounds
  ∧ del (initmap 4) (-1) = Ub OutOfBounds
  ∧ unsigned_index (-1) (capacity (initmap 4)) = Ok 3.
Proof. repeat split; reflexivity. Qed.

(** ** Storing INT_MAX (C10) *)

(** C10, evaluated where it fails: on a fresh map of capacity 4 that holds
    (1, 10), [put(1, INT_MAX)] appends a second entry and the [get(1)] after
    it returns 10, not [INT_MAX]; and [get(-1)] after [put(-1, INT_MAX)]
    indexes the table at -1. *)
Theorem put_INT_MAX_then_get :
  run (initmap 4) [Put 1 10; Put 1 INT_MAX; Get 1]
  = Ok ([INT_MAX; INT_MAX; 10],
        mk_hashmap [[]; [mk_entry 1 10; mk_entry 1 INT_MAX]; []; []] 3 4 2)
  ∧ run (initmap 4) [Put (-1) INT_MAX; Get (-1)] = Ub OutOfBounds.
Proof. split; reflexivity. Qed.


(** * Further properties of the code *)

(** ** Supporting lemmas *)

Lemma run_inv (calls : list call) (map : ts_hashmap_t) (rs : list Z)
    (map' : ts_hashmap_t) :
  map_inv map → run map calls = Ok (rs, map') → map_inv map'.
Proof.
  revert map rs. induction calls as [|c calls IH]; intros map rs Hinv; cbn.
  - by intros [= _ <-].
  - intros H. apply bind_Ok in H as ([r m1] & Hstep & H).
    apply bind_Ok in H as ([rs' m2] & Hrun & H). injection H as _ <-.
    eapply IH; [|done]. by eapply step_inv.
Qed.

Lemma put_loop_mem (e : ts_entry_t) (next : list ts_entry_t) (k v : Z)
    (e' : ts_entry_t) :
  e' ∈ (put_loop e next k v).2 → key e' = k ∨ e' ∈ e :: next.
Proof.
  revert e. induction next as [|n next IH]; intros e; cbn.
  - intros [->|H]%elem_of_cons; [right; by left|].
    apply list_elem_of_singleton in H as ->. by left.
  - destruct (Z.eqb_spec (key e) k) as [He|He]; cbn.
    + intros [->|H]%elem_of_cons; [by left | right; by right].
    + specialize (IH n). destruct (put_loop n next k v) as [old chain].
      cbn in *. intros [->|H]%elem_of_cons; [right; by left|].
      destruct (IH H) as [?|?]; [by left | right; by right].
Qed.

Lemma del_loop_mem (chain : list ts_entry_t) (k v : Z)
    (chain' : list ts_entry_t) (e' : ts_entry_t) :
  del_loop chain k = Some (v, chain') → e' ∈ chain' → e' ∈ chain.
Proof.
  intros (l1 & x & l2 & -> & -> & _)%del_loop_Some.
  rewrite !elem_of_app, elem_of_cons. tauto.
Qed.

Lemma table_at_replicate (n : nat) (i : Z) :
  0 <= i < Z.of_nat n → table_at (replicate n []) i = Ok [].
Proof.
  intros Hi. apply table_at_Ok. split; [lia|].
  apply lookup_replicate_2. lia.
Qed.

Lemma table_at_nil (i : Z) : table_at [] i = Ub OutOfBounds.
Proof. unfold table_at. by destruct (i <? 0). Qed.

Lemma step_placed (map : ts_hashmap_t) (c : call) (r : Z)
    (map' : ts_hashmap_t) :
  0 < capacity map <= INT_MAX → well_placed map →
  step map c = Ok (r, map') → well_placed map'.
Proof.
  intros Hc Hwp H. destruct c as [k|k v|k]; cbn in H.
  - apply get_Ok in H as (j & entry & _ & _ & _ & ->). exact Hwp.
  - apply put_Ok in H as (j & entry & chain & Hj & Hat & Htbl & _ & Hcap & H).
    rewrite unsigned_index_pos in Hj by done. injection Hj as <-.
    apply table_at_Ok in Hat as [Hpos Hat].
    intros i chain0 e0 Hi He0. rewrite Hcap. rewrite Htbl in Hi.
    destruct (decide (i = Z.to_nat (to_unsigned k mod capacity map)))
      as [->|Hne].
    + rewrite list_lookup_insert_eq in Hi by (by eapply lookup_lt_Some).
      injection Hi as <-.
      assert (key e0 = k ∨ e0 ∈ entry) as [<-|Hin].
      { destruct entry as [|e next].
        - destruct H as [-> _]. apply list_elem_of_singleton in He0 as ->.
          by left.
        - destruct H as [-> _]. by apply put_loop_mem in He0. }
      * lia.
      * by apply (Hwp _ entry).
    + rewrite list_lookup_insert_ne in Hi by done. by apply (Hwp _ chain0).
  - apply del_Ok in H as (j & entry & Hj & Hat & H).
    apply table_at_Ok in Hat as [Hpos Hat].
    destruct (del_loop entry k) as [[w chain]|] eqn:Hdel;
      destruct H as [_ ->]; [|exact Hwp].
    intros i chain0 e0 Hi He0. cbn in *.
    destruct (decide (i = Z.to_nat j)) as [->|Hne].
    + rewrite list_lookup_insert_eq in Hi by (by eapply lookup_lt_Some).
      injection Hi as <-. apply (Hwp _ entry); [done|].
      by eapply del_loop_mem.
    + rewrite list_lookup_insert_ne in Hi by done. by apply (Hwp _ chain0).
Qed.

(** ** Fresh maps and maps without buckets *)

(** X1: On a fresh map of positive capacity, [get] and [del] of a key that is
    not negative return [INT_MAX] and change only the operation counter. *)
Theorem fresh_map_get_del_miss (c k : Z) :
  0 < c <= INT_MAX → 0 <= k →
  get (initmap c) k = Ok (INT_MAX, mk_hashmap (table (initmap c)) 1 c 0) ∧
  del (initmap c) k = Ok (INT_MAX, mk_hashmap (table (initmap c)) 1 c 0).
Proof.
  intros Hc Hk.
  assert (table_at (replicate (Z.to_nat c) []) (Z.rem k c) = Ok []) as Hat.
  { apply table_at_replicate. rewrite Z.rem_mod_nonneg by lia.
    pose proof (Z.mod_pos_bound k c). lia. }
  unfold get, del, initmap. cbn [numOps capacity table size].
  rewrite signed_index_pos by lia. cbn. by rewrite Hat.
Qed.

Lemma fresh_map_get_del_miss_witness :
  0 < 4 <= INT_MAX ∧ 0 <= 7 ∧
  get (initmap 4) 7 = Ok (INT_MAX, mk_hashmap [[]; []; []; []] 1 4 0) ∧
  del (initmap 4) 7 = Ok (INT_MAX, mk_hashmap [[]; []; []; []] 1 4 0).
Proof.
  assert (0 < 4 <= INT_MAX) as Hc by (unfold INT_MAX; lia).
  assert (0 <= 7) as Hk by lia.
  split; [exact Hc|]. split; [exact Hk|].
  exact (fresh_map_get_del_miss 4 7 Hc Hk).
Defined.

(** X2: A map created with a capacity that is not positive has no bucket: no
    call on it completes. *)
Theorem nonpositive_capacity_no_call_completes (c : Z) (next : call) :
  c <= 0 → ∃ f, step (initmap c) next = Ub f.
Proof.
  intros Hc. unfold initmap.
  replace (Z.to_nat c) with 0%nat by lia. cbn [replicate].
  destruct next as [k|k v|k]; cbn [step]; unfold get, put, del;
    cbn [numOps capacity table size]; cbn [int_incr].
  - destruct (signed_index k c) as [i|f]; cbn; [|eauto].
    rewrite table_at_nil. eauto.
  - destruct (unsigned_index k c) as [i|f]; cbn; [|eauto].
    rewrite table_at_nil. eauto.
  - destruct (signed_index k c) as [i|f]; cbn; [|eauto].
    rewrite table_at_nil. eauto.
Qed.

Lemma nonpositive_capacity_no_call_completes_witness :
  -4 <= 0 ∧ ∃ f, step (initmap (-4)) (Put 1 10) = Ub f.
Proof.
  assert (-4 <= 0) as Hc by lia.
  split; [exact Hc|].
  exact (nonpositive_capacity_no_call_completes (-4) (Put 1 10) Hc).
Defined.

(** ** Invariants of the maps that calls build *)

(** X3: After any calls that complete on a fresh map of positive capacity,
    [size] is the number of entries in the table, the table still has one
    bucket per index below the capacity, and the capacity is unchanged. *)
Theorem size_counts_entries (c : Z) (calls : list call) (rs : list Z)
    (map : ts_hashmap_t) :
  0 < c <= INT_MAX → run (initmap c) calls = Ok (rs, map) →
  size map = Z.of_nat (length (concat (table map))) ∧
  length (table map) = Z.to_nat c ∧
  capacity map = c.
Proof.
  intros Hc Hrun.
  pose proof (run_inv _ _ _ _ (initmap_inv c Hc) Hrun) as [_ Ht Hs _].
  apply run_frame in Hrun as (_ & _ & Hcap & _). cbn in Hcap.
  rewrite Hcap in Ht. done.
Qed.

Lemma size_counts_entries_witness :
  0 < 4 <= INT_MAX ∧
  run (initmap 4) [Put 1 10; Put 1 20; Put 6 1; Del 1; Del 9; Get 6]
  = Ok ([INT_MAX; INT_MAX; INT_MAX; 10; INT_MAX; 1],
        mk_hashmap [[]; [mk_entry 1 20]; [mk_entry 6 1]; []] 6 4 2) ∧
  size (mk_hashmap [[]; [mk_entry 1 20]; [mk_entry 6 1]; []] 6 4 2)
  = Z.of_nat (length (concat [[]; [mk_entry 1 20]; [mk_entry 6 1]; []])).
Proof.
  assert (0 < 4 <= INT_MAX) as Hc by (unfold INT_MAX; lia).
  assert (run (initmap 4) [Put 1 10; Put 1 20; Put 6 1; Del 1; Del 9; Get 6]
          = Ok ([INT_MAX; INT_MAX; INT_MAX; 10; INT_MAX; 1],
                mk_hashmap [[]; [mk_entry 1 20]; [mk_entry 6 1]; []] 6 4 2))
    as Hrun by reflexivity.
  split; [exact Hc|]. split; [exact Hrun|].
  exact (proj1 (size_counts_entries _ _ _ _ Hc Hrun)).
Defined.

(** X4: After any calls that complete on a fresh map of positive capacity,
    every entry is in the bucket whose index is the unsigned value of its
    key modulo the capacity, negative keys included. *)
Theorem entries_in_unsigned_bucket (c : Z) (calls : list call) (rs : list Z)
    (map : ts_hashmap_t) :
  0 < c <= INT_MAX → run (initmap c) calls = Ok (rs, map) →
  ∀ (i : nat) (chain : list ts_entry_t) (e : ts_entry_t),
    table map !! i = Some chain → e ∈ chain →
    to_unsigned (key e) mod c = Z.of_nat i.
Proof.
  intros Hc Hrun.
  assert (∀ calls m rs m', map_inv m → well_placed m →
            run m calls = Ok (rs, m') → well_placed m') as Hgen.
  { clear. induction calls as [|cl calls IH]; intros m rs m' Hinv Hwp; cbn.
    - by intros [= _ <-].
    - intros H. apply bind_Ok in H as ([r m1] & Hstep & H).
      apply bind_Ok in H as ([rs' m2] & Hrun & H). injection H as _ <-.
      eapply (IH m1); [by eapply step_inv | | done].
      eapply step_placed; [by destruct Hinv | done | done]. }
  assert (well_placed (initmap c)) as Hwp0.
  { intros i chain e Hi He. cbn in Hi.
    apply lookup_replicate in Hi as [-> _]. by apply elem_of_nil in He. }
  pose proof (Hgen _ _ _ _ (initmap_inv c Hc) Hwp0 Hrun) as Hwp.
  apply run_frame in Hrun as (_ & _ & Hcap & _). cbn in Hcap.
  intros i chain e Hi He. rewrite <- Hcap. by apply (Hwp i chain).
Qed.

Lemma entries_in_unsigned_bucket_witness :
  0 < 4 <= INT_MAX ∧
  run (initmap 4) [Put (-1) 10; Put 6 1]
  = Ok ([INT_MAX; INT_MAX],
        mk_hashmap [[]; []; [mk_entry 6 1]; [mk_entry (-1) 10]] 2 4 2) ∧
  to_unsigned (key (mk_entry (-1) 10)) mod 4 = Z.of_nat 3.
Proof.
  assert (0 < 4 <= INT_MAX) as Hc by (unfold INT_MAX; lia).
  assert (run (initmap 4) [Put (-1) 10; Put 6 1]
          = Ok ([INT_MAX; INT_MAX],
                mk_hashmap [[]; []; [mk_entry 6 1]; [mk_entry (-1) 10]] 2 4 2))
    as Hrun by reflexivity.
  split; [exact Hc|]. split; [exact Hrun|].
  apply (entries_in_unsigned_bucket _ _ _ _ Hc Hrun 3%nat
           [mk_entry (-1) 10] (mk_entry (-1) 10)).
  - reflexivity.
  - by left.
Defined.

(** ** Calls that complete and calls that fault *)

(** X5: On a fresh map of positive capacity, a sequence of at most [INT_MAX]
    calls completes when the keys of its [get] and [del] calls are not
    negative; the keys of [put] may be any integers: the index of [put] is
    always inside the table. *)
Theorem calls_in_range_complete (c : Z) (calls : list call) :
  0 < c <= INT_MAX → Z.of_nat (length calls) <= INT_MAX →
  Forall call_in_range calls →
  ∃ rs map, run (initmap c) calls = Ok (rs, map).
Proof.
  intros Hc Hlen Hall.
  destruct (run_total calls (initmap c) (initmap_inv c Hc))
    as (rs & map & Hrun & _); [cbn; lia | done | eauto].
Qed.

Lemma calls_in_range_complete_witness :
  0 < 4 <= INT_MAX ∧
  Z.of_nat (length [Put (-7) 1; Get 5; Del 8]) <= INT_MAX ∧
  Forall call_in_range [Put (-7) 1; Get 5; Del 8] ∧
  ∃ rs map, run (initmap 4) [Put (-7) 1; Get 5; Del 8] = Ok (rs, map).
Proof.
  assert (0 < 4 <= INT_MAX) as Hc by (unfold INT_MAX; lia).
  assert (Z.of_nat (length [Put (-7) 1; Get 5; Del 8]) <= INT_MAX) as Hlen
    by (cbn; unfold INT_MAX; lia).
  assert (Forall call_in_range [Put (-7) 1; Get 5; Del 8]) as Hall.
  { repeat constructor; cbn; lia. }
  split; [exact Hc|]. split; [exact Hlen|]. split; [exact Hall|].
  exact (calls_in_range_complete 4 _ Hc Hlen Hall).
Defined.

(** X6: On a map that satisfies the invariant, [get] and [del] of a negative
    key index the table below its first bucket, unless the capacity divides
    the key: then the index is 0 and the call completes. *)
Theorem negative_key_faults_unless_divisible (map : ts_hashmap_t) (k : Z) :
  map_inv map → numOps map < INT_MAX → k < 0 →
  (Z.rem k (capacity map) ≠ 0 →
     get map k = Ub OutOfBounds ∧ del map k = Ub OutOfBounds) ∧
  (Z.rem k (capacity map) = 0 →
     ∃ entry, table_at (table map) 0 = Ok entry ∧
       get map k
       = Ok (get_loop entry k,
             mk_hashmap (table map) (numOps map + 1) (capacity map)
               (size map))).
Proof.
  intros Hinv Hops Hk. pose proof Hinv as [Hc Ht Hs Hn].
  pose proof (Z.rem_bound_pos_neg k (capacity map) ltac:(lia) ltac:(lia))
    as Hb.
  split.
  - intros Hne. unfold get, del.
    rewrite !(int_incr_lt (numOps map)) by done. cbn.
    rewrite signed_index_pos by lia. cbn.
    unfold table_at.
    destruct (Z.ltb_spec (Z.rem k (capacity map)) 0); [done | lia].
  - intros Hz.
    destruct (table_at_in_range map 0 Hinv) as [entry Hat]; [lia|].
    exists entry. split; [done|]. unfold get.
    rewrite (int_incr_lt (numOps map)) by done. cbn.
    rewrite signed_index_pos by lia. cbn. rewrite Hz, Hat. done.
Qed.

Lemma negative_key_faults_unless_divisible_witness :
  map_inv (initmap 4) ∧ numOps (initmap 4) < INT_MAX ∧ -6 < 0 ∧
  get (initmap 4) (-6) = Ub OutOfBounds ∧ del (initmap 4) (-6) = Ub OutOfBounds.
Proof.
  assert (map_inv (initmap 4)) as Hinv
    by (apply initmap_inv; unfold INT_MAX; lia).
  assert (numOps (initmap 4) < INT_MAX) as Hops by (cbn; unfold INT_MAX; lia).
  assert (-6 < 0) as Hk by lia.
  split; [exact Hinv|]. split; [exact Hops|]. split; [exact Hk|].
  apply (proj1 (negative_key_faults_unless_divisible _ _ Hinv Hops Hk)).
  vm_compute. discriminate.
Defined.

(** ** What put does to the bucket of its key *)

(** X7: [put] of a key that its bucket does not hold appends the entry at the
    tail of the chain, returns [INT_MAX] and adds one to [size]; this holds
    for negative keys too. *)
Theorem put_absent_key_appends (map : ts_hashmap_t) (k v : Z)
    (entry : list ts_entry_t) :
  map_inv map → numOps map < INT_MAX →
  table_at (table map) (to_unsigned k mod capacity map) = Ok entry →
  k ∉ keys entry →
  put map k v
  = Ok (INT_MAX,
        mk_hashmap
          (<[Z.to_nat (to_unsigned k mod capacity map)
             := entry ++ [new_entry k v]]> (table map))
          (numOps map + 1) (capacity map) (size map + 1)).
Proof.
  intros [Hc Ht Hs Hn] Hops Hat Hk.
  apply put_absent; [by apply unsigned_index_pos | done | done | done | lia].
Qed.

Lemma put_absent_key_appends_witness :
  map_inv (mk_hashmap [[]; [mk_entry 1 10]; []; []] 1 4 1) ∧
  put (mk_hashmap [[]; [mk_entry 1 10]; []; []] 1 4 1) 5 20
  = Ok (INT_MAX,
        mk_hashmap [[]; [mk_entry 1 10; mk_entry 5 20]; []; []] 2 4 2).
Proof.
  assert (map_inv (mk_hashmap [[]; [mk_entry 1 10]; []; []] 1 4 1)) as Hinv.
  { split; cbn; unfold INT_MAX; lia. }
  split; [exact Hinv|].
  apply (put_absent_key_appends _ 5 20 [mk_entry 1 10] Hinv).
  - cbn. unfold INT_MAX. lia.
  - reflexivity.
  - cbn. intros H. apply list_elem_of_singleton in H. discriminate H.
Defined.

(** X8: [put] of a key held by an entry that has a successor overwrites the
    value of the first such entry in place, returns the old value and keeps
    [size] and the order of the chain. *)
Theorem put_present_key_overwrites (map : ts_hashmap_t) (k v : Z)
    (l1 : list ts_entry_t) (x : ts_entry_t) (l2 : list ts_entry_t) :
  map_inv map → numOps map < INT_MAX →
  table_at (table map) (to_unsigned k mod capacity map) = Ok (l1 ++ x :: l2) →
  l2 ≠ [] → k ∉ keys l1 → key x = k →
  put map k v
  = Ok (value x,
        mk_hashmap
          (<[Z.to_nat (to_unsigned k mod capacity map)
             := l1 ++ mk_entry k v :: l2]> (table map))
          (numOps map + 1) (capacity map) (size map)).
Proof.
  intros [Hc Ht Hs Hn] Hops Hat Hl2 Hk Hx.
  rewrite (put_overwrite map k v (to_unsigned k mod capacity map) l1 x l2);
    [by rewrite Hx | by apply unsigned_index_pos | done..].
Qed.

Lemma put_present_key_overwrites_witness :
  map_inv (mk_hashmap [[]; [mk_entry 1 10; mk_entry 5 20]; []; []] 2 4 2) ∧
  put (mk_hashmap [[]; [mk_entry 1 10; mk_entry 5 20]; []; []] 2 4 2) 1 30
  = Ok (10, mk_hashmap [[]; [mk_entry 1 30; mk_entry 5 20]; []; []] 3 4 2).
Proof.
  assert (map_inv (mk_hashmap [[]; [mk_entry 1 10; mk_entry 5 20]; []; []]
                     2 4 2)) as Hinv.
  { split; cbn; unfold INT_MAX; lia. }
  split; [exact Hinv|].
  apply (put_present_key_overwrites _ 1 30 [] (mk_entry 1 10) [mk_entry 5 20]
           Hinv).
  - cbn. unfold INT_MAX. lia.
  - reflexivity.
  - discriminate.
  - cbn. apply not_elem_of_nil.
  - reflexivity.
Defined.

(** X9: [put] of a key that only the last entry of the chain holds does not
    find it: it appends a second entry with the key, returns [INT_MAX] and
    adds one to [size], so that the chain holds the key twice. *)
Theorem put_key_of_last_entry_duplicates (map : ts_hashmap_t) (k v : Z)
    (l1 : list ts_entry_t) (x : ts_entry_t) :
  map_inv map → numOps map < INT_MAX →
  table_at (table map) (to_unsigned k mod capacity map) = Ok (l1 ++ [x]) →
  k ∉ keys l1 → key x = k →
  put map k v
  = Ok (INT_MAX,
        mk_hashmap
          (<[Z.to_nat (to_unsigned k mod capacity map)
             := l1 ++ [x; new_entry k v]]> (table map))
          (numOps map + 1) (capacity map) (size map + 1))
  ∧ ¬ NoDup (keys (l1 ++ [x; new_entry k v])).
Proof.
  intros [Hc Ht Hs Hn] Hops Hat Hk Hx. split.
  - apply put_last_not_compared;
      [by apply unsigned_index_pos | done | done | done | lia].
  - unfold keys. rewrite fmap_app. cbn. rewrite Hx.
    intros (_ & _ & Hnd)%NoDup_app.
    apply NoDup_cons in Hnd as [Hnotin _]. apply Hnotin. by left.
Qed.

Lemma put_key_of_last_entry_duplicates_witness :
  map_inv (mk_hashmap [[]; [mk_entry 1 10; mk_entry 5 20]; []; []] 2 4 2) ∧
  put (mk_hashmap [[]; [mk_entry 1 10; mk_entry 5 20]; []; []] 2 4 2) 5 30
  = Ok (INT_MAX,
        mk_hashmap [[]; [mk_entry 1 10; mk_entry 5 20; mk_entry 5 30]; []; []]
          3 4 3).
Proof.
  assert (map_inv (mk_hashmap [[]; [mk_entry 1 10; mk_entry 5 20]; []; []]
                     2 4 2)) as Hinv.
  { split; cbn; unfold INT_MAX; lia. }
  split; [exact Hinv|].
  apply (put_key_of_last_entry_duplicates _ 5 30 [mk_entry 1 10]
           (mk_entry 5 20) Hinv).
  - cbn. unfold INT_MAX. lia.
  - reflexivity.
  - cbn. intros H. apply list_elem_of_singleton in H. discriminate H.
  - reflexivity.
Defined.

(** ** get after put *)

Lemma put_loop_found_get (e : ts_entry_t) (next : list ts_entry_t) (k v : Z) :
  (put_loop e next k v).1 ≠ None →
  get_loop (put_loop e next k v).2 k = v.
Proof.
  revert e. induction next as [|n next IH]; intros e; cbn; [done|].
  destruct (Z.eqb_spec (key e) k) as [He|He]; cbn.
  - intros _. by rewrite He, Z.eqb_refl.
  - specialize (IH n). destruct (put_loop n next k v) as [old chain].
    cbn in *. intros Hold.
    destruct (Z.eqb_spec (key e) k); [done | auto].
Qed.

Lemma get_loop_put_loop_ne (e : ts_entry_t) (next : list ts_entry_t)
    (k v k' : Z) :
  k' ≠ k → get_loop (put_loop e next k v).2 k' = get_loop (e :: next) k'.
Proof.
  intros Hne. revert e. induction next as [|n next IH]; intros e; cbn.
  - destruct (key e =? k'); [done|].
    by destruct (Z.eqb_spec k k'); [congruence|].
  - destruct (Z.eqb_spec (key e) k) as [He|He]; cbn.
    + destruct (Z.eqb_spec (key e) k'); [congruence | done].
    + specialize (IH n). destruct (put_loop n next k v) as [old chain].
      cbn in *. by rewrite IH.
Qed.

Lemma get_loop_del_loop_ne (chain : list ts_entry_t) (k w : Z)
    (chain' : list ts_entry_t) (k' : Z) :
  del_loop chain k = Some (w, chain') → k' ≠ k →
  get_loop chain' k' = get_loop chain k'.
Proof.
  intros Hdel Hne. revert chain' Hdel.
  induction chain as [|e next IH]; intros chain'; cbn; [done|].
  destruct (Z.eqb_spec (key e) k) as [He|He].
  - intros [= _ <-]. by destruct (Z.eqb_spec (key e) k'); [congruence|].
  - destruct (del_loop next k) as [[w' c]|]; [|done].
    intros [= -> <-]. cbn. by rewrite (IH c eq_refl).
Qed.

Lemma get_loop_del_loop (chain : list ts_entry_t) (k : Z) :
  get_loop chain k
  = match del_loop chain k with Some (v, _) => v | None => INT_MAX end.
Proof.
  induction chain as [|e next IH]; cbn; [done|].
  destruct (key e =? k); [done|].
  rewrite IH. by destruct (del_loop next k) as [[v c]|].
Qed.

(** The bucket that [get] reads after a call wrote a chain at an index. *)
Lemma table_at_insert (tbl : list (list ts_entry_t)) (i j : Z)
    (old chain : list ts_entry_t) :
  table_at tbl i = Ok old →
  table_at (<[Z.to_nat i := chain]> tbl) j
  = if decide (j = i) then Ok chain else table_at tbl j.
Proof.
  intros [Hi Hold]%table_at_Ok. destruct (decide (j = i)) as [->|Hne].
  - apply table_at_Ok. split; [done|].
    apply list_lookup_insert_eq. by eapply lookup_lt_Some.
  - unfold table_at. destruct (Z.ltb_spec j 0); [done|].
    rewrite list_lookup_insert_ne by lia. done.
Qed.

(** X10: When [put] leaves [size] as it was, it has overwritten an entry, and a
    [get] of the key right after it returns the value that was put. *)
Theorem put_same_size_then_get (map : ts_hashmap_t) (k v r : Z)
    (map1 : ts_hashmap_t) :
  0 <= k <= INT_MAX → 0 < capacity map <= INT_MAX →
  put map k v = Ok (r, map1) → size map1 = size map →
  numOps map1 < INT_MAX →
  get map1 k
  = Ok (v, mk_hashmap (table map1) (numOps map1 + 1) (capacity map1)
             (size map1)).
Proof.
  intros Hk Hc Hput Hsz Hops.
  apply put_Ok in Hput as (j & entry & chain & Hj & Hat & Htbl & _ & Hcap & H).
  rewrite unsigned_index_pos in Hj by done. injection Hj as <-.
  assert (get_loop chain k = v) as Hget.
  { destruct entry as [|e next]; [lia|]. destruct H as [-> H].
    apply put_loop_found_get.
    destruct (put_loop e next k v).1; [done | lia]. }
  unfold get. rewrite int_incr_lt by done. cbn.
  rewrite Hcap, signed_index_pos by lia. cbn.
  rewrite (index_agree k (capacity map)) by lia.
  rewrite Htbl at 1. rewrite (table_at_insert _ _ _ entry) by done.
  rewrite decide_True by done. cbn. by rewrite Hget.
Qed.

Lemma put_same_size_then_get_witness :
  put (mk_hashmap [[]; [mk_entry 1 10; mk_entry 5 20]; []; []] 2 4 2) 1 30
  = Ok (10, mk_hashmap [[]; [mk_entry 1 30; mk_entry 5 20]; []; []] 3 4 2) ∧
  get (mk_hashmap [[]; [mk_entry 1 30; mk_entry 5 20]; []; []] 3 4 2) 1
  = Ok (30, mk_hashmap [[]; [mk_entry 1 30; mk_entry 5 20]; []; []] 4 4 2).
Proof.
  assert (put (mk_hashmap [[]; [mk_entry 1 10; mk_entry 5 20]; []; []] 2 4 2)
            1 30
          = Ok (10, mk_hashmap [[]; [mk_entry 1 30; mk_entry 5 20]; []; []]
                      3 4 2)) as Hput by reflexivity.
  split; [exact Hput|].
  assert (0 <= 1 <= INT_MAX) as Hk by (unfold INT_MAX; lia).
  assert (0 < 4 <= INT_MAX) as Hc by (unfold INT_MAX; lia).
  assert (3 < INT_MAX) as Hops by (unfold INT_MAX; lia).
  exact (put_same_size_then_get
           (mk_hashmap [[]; [mk_entry 1 10; mk_entry 5 20]; []; []] 2 4 2)
           1 30 10
           (mk_hashmap [[]; [mk_entry 1 30; mk_entry 5 20]; []; []] 3 4 2)
           Hk Hc Hput eq_refl Hops).
Defined.

(** X11: [put] of a key that is not negative and that its bucket does not hold,
    then [get] of the key, returns [INT_MAX] and then the value. *)
Theorem put_new_key_then_get (map : ts_hashmap_t) (k v : Z)
    (entry : list ts_entry_t) :
  map_inv map → 0 <= k <= INT_MAX → numOps map + 2 <= INT_MAX →
  table_at (table map) (Z.rem k (capacity map)) = Ok entry →
  k ∉ keys entry →
  ∃ map', run map [Put k v; Get k] = Ok ([INT_MAX; v], map').
Proof.
  intros Hinv Hk Hops Hat Habs.
  apply put_absent_get; [done | done | | done].
  intros entry' Hat'. rewrite Hat in Hat'. by injection Hat' as <-.
Qed.

Lemma put_new_key_then_get_witness :
  map_inv (mk_hashmap [[]; [mk_entry 1 10]; []; []] 1 4 1) ∧
  ∃ map',
    run (mk_hashmap [[]; [mk_entry 1 10]; []; []] 1 4 1) [Put 5 20; Get 5]
    = Ok ([INT_MAX; 20], map').
Proof.
  assert (map_inv (mk_hashmap [[]; [mk_entry 1 10]; []; []] 1 4 1)) as Hinv.
  { split; cbn; unfold INT_MAX; lia. }
  split; [exact Hinv|].
  apply (put_new_key_then_get _ 5 20 [mk_entry 1 10] Hinv).
  - unfold INT_MAX. lia.
  - cbn. unfold INT_MAX. lia.
  - reflexivity.
  - cbn. intros H. apply list_elem_of_singleton in H. discriminate H.
Defined.

(** ** Other keys *)

(** X12: [put] of one key does not change what [get] returns for another key,
    in the same bucket or in another one. *)
Theorem put_keeps_other_keys (map : ts_hashmap_t) (k v r : Z)
    (map1 : ts_hashmap_t) (k' r' : Z) (map0 : ts_hashmap_t) :
  put map k v = Ok (r, map1) → k' ≠ k →
  get map k' = Ok (r', map0) → numOps map1 < INT_MAX →
  get map1 k'
  = Ok (r', mk_hashmap (table map1) (numOps map1 + 1) (capacity map1)
              (size map1)).
Proof.
  intros Hput Hne Hget Hops.
  apply put_Ok in Hput as (j & entry & chain & Hj & Hat & Htbl & _ & Hcap & H).
  apply get_Ok in Hget as (j' & entry' & Hj' & Hat' & -> & _).
  unfold get. rewrite int_incr_lt by done. cbn.
  rewrite Hcap, Hj'. cbn.
  rewrite Htbl at 1. rewrite (table_at_insert _ _ _ entry) by done.
  destruct (decide (j' = j)) as [->|Hjj]; cbn.
  - rewrite Hat in Hat'. injection Hat' as <-.
    destruct entry as [|e next].
    + destruct H as [-> _]. cbn.
      by destruct (Z.eqb_spec k k'); [congruence|].
    + destruct H as [-> _]. by rewrite get_loop_put_loop_ne.
  - by rewrite Hat'.
Qed.

Lemma put_keeps_other_keys_witness :
  put (mk_hashmap [[]; [mk_entry 1 10; mk_entry 5 20]; []; []] 2 4 2) 1 30
  = Ok (10, mk_hashmap [[]; [mk_entry 1 30; mk_entry 5 20]; []; []] 3 4 2) ∧
  5 ≠ 1 ∧
  get (mk_hashmap [[]; [mk_entry 1 30; mk_entry 5 20]; []; []] 3 4 2) 5
  = Ok (20, mk_hashmap [[]; [mk_entry 1 30; mk_entry 5 20]; []; []] 4 4 2).
Proof.
  assert (put (mk_hashmap [[]; [mk_entry 1 10; mk_entry 5 20]; []; []] 2 4 2)
            1 30
          = Ok (10, mk_hashmap [[]; [mk_entry 1 30; mk_entry 5 20]; []; []]
                      3 4 2)) as Hput by reflexivity.
  assert (5 ≠ 1) as Hne by lia.
  assert (get (mk_hashmap [[]; [mk_entry 1 10; mk_entry 5 20]; []; []] 2 4 2)
            5
          = Ok (20, mk_hashmap [[]; [mk_entry 1 10; mk_entry 5 20]; []; []]
                      3 4 2)) as Hget by reflexivity.
  assert (3 < INT_MAX) as Hops by (unfold INT_MAX; lia).
  split; [exact Hput|]. split; [exact Hne|].
  exact (put_keeps_other_keys _ 1 30 10 _ 5 20 _ Hput Hne Hget Hops).
Defined.

(** X13: [del] of one key does not change what [get] returns for another key. *)
Theorem del_keeps_other_keys (map : ts_hashmap_t) (k r : Z)
    (map1 : ts_hashmap_t) (k' r' : Z) (map0 : ts_hashmap_t) :
  del map k = Ok (r, map1) → k' ≠ k →
  get map k' = Ok (r', map0) → numOps map1 < INT_MAX →
  get map1 k'
  = Ok (r', mk_hashmap (table map1) (numOps map1 + 1) (capacity map1)
              (size map1)).
Proof.
  intros Hdel Hne Hget Hops.
  apply del_Ok in Hdel as (j & entry & Hj & Hat & H).
  apply get_Ok in Hget as (j' & entry' & Hj' & Hat' & -> & _).
  unfold get. rewrite int_incr_lt by done. cbn.
  destruct (del_loop entry k) as [[w chain]|] eqn:Hloop;
    destruct H as [_ ->]; cbn [capacity table numOps size] in *;
    rewrite Hj'; cbn.
  - rewrite (table_at_insert _ _ _ entry) by done.
    destruct (decide (j' = j)) as [->|Hjj]; cbn.
    + rewrite Hat in Hat'. injection Hat' as <-.
      by rewrite (get_loop_del_loop_ne entry k w chain k').
    + by rewrite Hat'.
  - by rewrite Hat'.
Qed.

Lemma del_keeps_other_keys_witness :
  del (mk_hashmap [[]; [mk_entry 1 10; mk_entry 5 20]; []; []] 2 4 2) 1
  = Ok (10, mk_hashmap [[]; [mk_entry 5 20]; []; []] 3 4 1) ∧
  5 ≠ 1 ∧
  get (mk_hashmap [[]; [mk_entry 5 20]; []; []] 3 4 1) 5
  = Ok (20, mk_hashmap [[]; [mk_entry 5 20]; []; []] 4 4 1).
Proof.
  assert (del (mk_hashmap [[]; [mk_entry 1 10; mk_entry 5 20]; []; []] 2 4 2) 1
          = Ok (10, mk_hashmap [[]; [mk_entry 5 20]; []; []] 3 4 1)) as Hdel
    by reflexivity.
  assert (5 ≠ 1) as Hne by lia.
  assert (get (mk_hashmap [[]; [mk_entry 1 10; mk_entry 5 20]; []; []] 2 4 2)
            5
          = Ok (20, mk_hashmap [[]; [mk_entry 1 10; mk_entry 5 20]; []; []]
                      3 4 2)) as Hget by reflexivity.
  assert (3 < INT_MAX) as Hops by (unfold INT_MAX; lia).
  split; [exact Hdel|]. split; [exact Hne|].
  exact (del_keeps_other_keys _ 1 10 _ 5 20 _ Hdel Hne Hget Hops).
Defined.

(** ** del *)

(** X14: A [del] that completes returns what a [get] of the same key on the same
    map returns: the value of the first entry with the key, or [INT_MAX]. *)
Theorem del_returns_what_get_returns (map : ts_hashmap_t) (k r : Z)
    (map' : ts_hashmap_t) :
  del map k = Ok (r, map') →
  get map k
  = Ok (r, mk_hashmap (table map) (numOps map + 1) (capacity map) (size map)).
Proof.
  intros Hdel. unfold del in Hdel. res_inv Hdel.
  apply int_incr_Ok in Ha as [Hlt ->].
  unfold get. rewrite int_incr_lt by done. cbn. rewrite Ha0. cbn.
  rewrite Ha1. cbn. rewrite get_loop_del_loop.
  destruct (del_loop a1 k) as [[w chain]|]; res_inv Hdel; congruence.
Qed.

Lemma del_returns_what_get_returns_witness :
  del (mk_hashmap [[]; [mk_entry 1 10; mk_entry 1 20]; []; []] 2 4 2) 1
  = Ok (10, mk_hashmap [[]; [mk_entry 1 20]; []; []] 3 4 1) ∧
  get (mk_hashmap [[]; [mk_entry 1 10; mk_entry 1 20]; []; []] 2 4 2) 1
  = Ok (10, mk_hashmap [[]; [mk_entry 1 10; mk_entry 1 20]; []; []] 3 4 2).
Proof.
  assert (del (mk_hashmap [[]; [mk_entry 1 10; mk_entry 1 20]; []; []] 2 4 2) 1
          = Ok (10, mk_hashmap [[]; [mk_entry 1 20]; []; []] 3 4 1)) as Hdel
    by reflexivity.
  split; [exact Hdel|].
  exact (del_returns_what_get_returns _ 1 10 _ Hdel).
Defined.

(** X15: [del] of a key that the bucket of its signed index holds once returns
    the value, takes one from [size], and the [get] after it returns
    [INT_MAX]. *)
Theorem del_single_entry_then_get (map : ts_hashmap_t) (k : Z)
    (entry : list ts_entry_t) :
  map_inv map → numOps map + 2 <= INT_MAX →
  table_at (table map) (Z.rem k (capacity map)) = Ok entry →
  NoDup (keys entry) → k ∈ keys entry →
  ∃ map', run map [Del k; Get k] = Ok ([get_loop entry k; INT_MAX], map') ∧
          size map' = size map - 1.
Proof.
  intros [Hc Ht Hs Hn] Hops Hat Hnd Hin.
  apply (del_present_unique map k (Z.rem k (capacity map)) entry);
    [apply signed_index_pos; lia | done | done | done | done |].
  unfold INT_MIN. lia.
Qed.

Lemma del_single_entry_then_get_witness :
  map_inv (mk_hashmap [[]; [mk_entry 1 10; mk_entry 5 20]; []; []] 2 4 2) ∧
  ∃ map',
    run (mk_hashmap [[]; [mk_entry 1 10; mk_entry 5 20]; []; []] 2 4 2)
      [Del 5; Get 5]
    = Ok ([20; INT_MAX], map') ∧
    size map' = 1.
Proof.
  assert (map_inv (mk_hashmap [[]; [mk_entry 1 10; mk_entry 5 20]; []; []]
                     2 4 2)) as Hinv.
  { split; cbn; unfold INT_MAX; lia. }
  split; [exact Hinv|].
  apply (del_single_entry_then_get _ 5 [mk_entry 1 10; mk_entry 5 20] Hinv).
  - cbn. unfold INT_MAX. lia.
  - reflexivity.
  - cbn. apply NoDup_cons. split.
    + intros H. apply list_elem_of_singleton in H. discriminate H.
    + apply NoDup_singleton.
  - cbn. right. by left.
Defined.

(** X16: [del] of a key that the bucket of its signed index does not hold
    returns [INT_MAX] and changes only the operation counter. *)
Theorem del_absent_key_changes_nothing (map : ts_hashmap_t) (k : Z)
    (entry : list ts_entry_t) :
  0 < capacity map → numOps map < INT_MAX →
  table_at (table map) (Z.rem k (capacity map)) = Ok entry →
  k ∉ keys entry →
  del map k
  = Ok (INT_MAX,
        mk_hashmap (table map) (numOps map + 1) (capacity map) (size map)).
Proof.
  intros Hc Hops Hat Hk.
  by apply (del_absent map k (Z.rem k (capacity map)) entry);
    [apply signed_index_pos | | |].
Qed.

Lemma del_absent_key_changes_nothing_witness :
  0 < capacity (mk_hashmap [[]; [mk_entry 1 10]; []; []] 1 4 1) ∧
  del (mk_hashmap [[]; [mk_entry 1 10]; []; []] 1 4 1) 5
  = Ok (INT_MAX, mk_hashmap [[]; [mk_entry 1 10]; []; []] 2 4 1).
Proof.
  assert (0 < capacity (mk_hashmap [[]; [mk_entry 1 10]; []; []] 1 4 1))
    as Hc by (cbn; lia).
  split; [exact Hc|].
  apply (del_absent_key_changes_nothing _ 5 [mk_entry 1 10] Hc).
  - cbn. unfold INT_MAX. lia.
  - reflexivity.
  - cbn. intros H. apply list_elem_of_singleton in H. discriminate H.
Defined.

(** ** Chains without duplicate keys *)

Lemma keys_put_loop (e : ts_entry_t) (next : list ts_entry_t) (k v k' : Z) :
  k' ∈ keys (put_loop e next k v).2 → k' = k ∨ k' ∈ keys (e :: next).
Proof.
  unfold keys. intros (e' & -> & He')%list_elem_of_fmap.
  apply put_loop_mem in He' as [?|He']; [by left | right].
  apply list_elem_of_fmap. eauto.
Qed.

Lemma put_loop_NoDup (e : ts_entry_t) (next : list ts_entry_t) (k v : Z) :
  NoDup (keys (e :: next)) → last (keys (e :: next)) ≠ Some k →
  NoDup (keys (put_loop e next k v).2).
Proof.
  revert e. induction next as [|n next IH]; intros e Hnd Hlast.
  - cbn in *. apply NoDup_cons. split; [|apply NoDup_singleton].
    intros H. apply list_elem_of_singleton in H. congruence.
  - cbn [put_loop]. destruct (Z.eqb_spec (key e) k) as [He|He]; [done|].
    pose proof (keys_put_loop n next k v (key e)) as Hmem.
    specialize (IH n).
    destruct (put_loop n next k v) as [old chain]. cbn in *.
    apply NoDup_cons in Hnd as [Hnotin Hnd].
    apply NoDup_cons. split.
    + intros Hin. destruct (Hmem Hin) as [?|?]; [congruence | done].
    + by apply IH.
Qed.

(** X17: [del] never makes a chain hold a key twice: chains without duplicate
    keys stay so. *)
Theorem del_keeps_unique_keys (map : ts_hashmap_t) (k r : Z)
    (map' : ts_hashmap_t) :
  unique_keys map → del map k = Ok (r, map') → unique_keys map'.
Proof.
  intros Huk Hdel. apply del_Ok in Hdel as (j & entry & _ & Hat & H).
  apply table_at_Ok in Hat as [Hj Hat].
  destruct (del_loop entry k) as [[w chain]|] eqn:Hloop;
    destruct H as [_ ->]; [|exact Huk].
  intros i chain0 Hi. cbn in Hi.
  destruct (decide (i = Z.to_nat j)) as [->|Hne].
  - rewrite list_lookup_insert_eq in Hi by (by eapply lookup_lt_Some).
    injection Hi as <-.
    by destruct (del_loop_unique _ _ _ _ (Huk _ _ Hat) Hloop) as (_ & _ & ? & _).
  - rewrite list_lookup_insert_ne in Hi by done. by apply (Huk i).
Qed.

Lemma del_keeps_unique_keys_witness :
  unique_keys (mk_hashmap [[]; [mk_entry 1 10; mk_entry 5 20]; []; []] 2 4 2) ∧
  del (mk_hashmap [[]; [mk_entry 1 10; mk_entry 5 20]; []; []] 2 4 2) 1
  = Ok (10, mk_hashmap [[]; [mk_entry 5 20]; []; []] 3 4 1) ∧
  unique_keys (mk_hashmap [[]; [mk_entry 5 20]; []; []] 3 4 1).
Proof.
  assert (unique_keys
            (mk_hashmap [[]; [mk_entry 1 10; mk_entry 5 20]; []; []] 2 4 2))
    as Huk.
  { intros i chain Hi. cbn in Hi.
    destruct i as [|[|[|[|i]]]]; cbn in Hi; try discriminate Hi;
      injection Hi as <-; cbn; try apply NoDup_nil_2.
    apply NoDup_cons. split; [|apply NoDup_singleton].
    intros H. apply list_elem_of_singleton in H. discriminate H. }
  split; [exact Huk|]. split; [reflexivity|].
  apply (del_keeps_unique_keys _ 1 10 _ Huk). reflexivity.
Defined.

(** X18: [put] keeps chains without duplicate keys so, unless the key is the one
    of the last entry of its chain. *)
Theorem put_keeps_unique_keys (map : ts_hashmap_t) (k v r : Z)
    (map' : ts_hashmap_t) :
  unique_keys map → put map k v = Ok (r, map') →
  (∀ j entry, unsigned_index k (capacity map) = Ok j →
              table_at (table map) j = Ok entry →
              last (keys entry) ≠ Some k) →
  unique_keys map'.
Proof.
  intros Huk Hput Hlast.
  apply put_Ok in Hput as (j & entry & chain & Hj & Hat & Htbl & _ & _ & H).
  specialize (Hlast j entry Hj Hat).
  apply table_at_Ok in Hat as [Hpos Hat].
  intros i chain0 Hi. rewrite Htbl in Hi.
  destruct (decide (i = Z.to_nat j)) as [->|Hne].
  - rewrite list_lookup_insert_eq in Hi by (by eapply lookup_lt_Some).
    injection Hi as <-. destruct entry as [|e next].
    + destruct H as [-> _]. cbn. apply NoDup_singleton.
    + destruct H as [-> _]. apply put_loop_NoDup; [|done].
      by apply (Huk _ _ Hat).
  - rewrite list_lookup_insert_ne in Hi by done. by apply (Huk i).
Qed.

Lemma put_keeps_unique_keys_witness :
  unique_keys (mk_hashmap [[]; [mk_entry 1 10; mk_entry 5 20]; []; []] 2 4 2) ∧
  put (mk_hashmap [[]; [mk_entry 1 10; mk_entry 5 20]; []; []] 2 4 2) 1 30
  = Ok (10, mk_hashmap [[]; [mk_entry 1 30; mk_entry 5 20]; []; []] 3 4 2) ∧
  unique_keys (mk_hashmap [[]; [mk_entry 1 30; mk_entry 5 20]; []; []] 3 4 2).
Proof.
  assert (unique_keys
            (mk_hashmap [[]; [mk_entry 1 10; mk_entry 5 20]; []; []] 2 4 2))
    as Huk.
  { intros i chain Hi. cbn in Hi.
    destruct i as [|[|[|[|i]]]]; cbn in Hi; try discriminate Hi;
      injection Hi as <-; cbn; try apply NoDup_nil_2.
    apply NoDup_cons. split; [|apply NoDup_singleton].
    intros H. apply list_elem_of_singleton in H. discriminate H. }
  split; [exact Huk|]. split; [reflexivity|].
  apply (put_keeps_unique_keys _ 1 30 10 _ Huk); [reflexivity|].
  intros j entry Hj Hat. injection Hj as <-. injection Hat as <-.
  cbn. discriminate.
Defined.

(** ** printmap and freeMap *)

Lemma count_char_app (c : ascii) (s1 s2 : string) :
  count_char c (s1 +:+ s2) = (count_char c s1 + count_char c s2)%nat.
Proof. induction s1 as [|a s1 IH]; simpl; [done | rewrite IH; lia]. Qed.

(** A character that is neither a digit nor the minus sign does not occur
    in a printed integer. *)
Lemma count_char_print_int (c : ascii) (z : Z) :
  count_char c "-0123456789" = 0%nat → count_char c (print_int z) = 0%nat.
Proof.
  intros H. cbn in H.
  repeat match type of H with
  | context [Ascii.eqb c ?a] =>
      destruct (Ascii.eqb c a) eqn:?; [discriminate H|]; cbn in H
  end.
  assert (∀ d, count_char c (NilEmpty.string_of_uint d) = 0%nat) as Huint.
  { induction d as [|d IH|d IH|d IH|d IH|d IH|d IH|d IH|d IH|d IH|d IH];
      cbn; [done|..]; rewrite IH;
      match goal with
      | Heq : Ascii.eqb c ?a = false |- context [Ascii.eqb c ?a] =>
          by rewrite Heq
      end. }
  assert (∀ d, count_char c (NilZero.string_of_uint d) = 0%nat) as Hnz.
  { intros d. destruct d; try apply Huint. cbn.
    match goal with
    | Heq : Ascii.eqb c ?a = false |- context [Ascii.eqb c ?a] =>
        by rewrite Heq
    end. }
  unfold print_int. destruct z as [|p|p]; cbn [Z.to_int NilZero.string_of_int].
  - apply Hnz.
  - apply Hnz.
  - cbn [count_char]. rewrite Hnz.
    match goal with
    | Heq : Ascii.eqb c ?a = false |- context [Ascii.eqb c ?a] =>
        by rewrite Heq
    end.
Qed.

Lemma print_chain_newlines (entry : list ts_entry_t) :
  count_char "010" (print_chain entry) = 0%nat.
Proof.
  induction entry as [|e next IH]; [done|]. cbn [print_chain].
  rewrite !count_char_app, IH, !count_char_print_int by done.
  by destruct next.
Qed.

Lemma print_chain_pairs (entry : list ts_entry_t) :
  count_char "(" (print_chain entry) = length entry.
Proof.
  induction entry as [|e next IH]; [done|]. cbn [print_chain].
  rewrite !count_char_app, IH, !count_char_print_int by done.
  by destruct next.
Qed.

Lemma table_at_middle (pre : list (list ts_entry_t)) (chain : list ts_entry_t)
    (suf : list (list ts_entry_t)) :
  table_at (pre ++ chain :: suf) (Z.of_nat (length pre)) = Ok chain.
Proof.
  apply table_at_Ok. split; [lia|].
  rewrite Nat2Z.id. by apply list_lookup_middle.
Qed.

Lemma printmap_loop_buckets (pre suf : list (list ts_entry_t)) :
  ∃ out,
    printmap_loop (pre ++ suf)
      (seqZ (Z.of_nat (length pre)) (Z.of_nat (length suf))) = Ok out ∧
    count_char "010" out = length suf ∧
    count_char "(" out = length (concat suf).
Proof.
  revert pre. induction suf as [|chain suf IH]; intros pre.
  - exists "". by cbn.
  - rewrite seqZ_cons by (cbn [length]; lia). cbn [printmap_loop].
    rewrite table_at_middle. cbn.
    destruct (IH (pre ++ [chain])) as (out & Hout & Hnl & Hp).
    rewrite <- app_assoc, length_app in Hout. cbn [app length] in Hout.
    replace (Z.succ (Z.of_nat (length pre)))
      with (Z.of_nat (length pre + 1)) by lia.
    replace (Z.pred (Z.of_nat (S (length suf))))
      with (Z.of_nat (length suf)) by lia.
    rewrite Hout. cbn. eexists. split; [done|].
    rewrite !count_char_app, !count_char_print_int by done.
    rewrite print_chain_newlines, print_chain_pairs, Hnl, Hp, length_app.
    cbn. split; lia.
Qed.

Lemma freeMap_loop_buckets (pre suf : list (list ts_entry_t)) :
  freeMap_loop (pre ++ suf)
    (seqZ (Z.of_nat (length pre)) (Z.of_nat (length suf))) = Ok (concat suf).
Proof.
  revert pre. induction suf as [|chain suf IH]; intros pre; [done|].
  rewrite seqZ_cons by (cbn [length]; lia). cbn [freeMap_loop].
  rewrite table_at_middle. cbn.
  specialize (IH (pre ++ [chain])).
  rewrite <- app_assoc, length_app in IH. cbn [app length] in IH.
  replace (Z.succ (Z.of_nat (length pre)))
    with (Z.of_nat (length pre + 1)) by lia.
  replace (Z.pred (Z.of_nat (S (length suf))))
    with (Z.of_nat (length suf)) by lia.
  by rewrite IH.
Qed.

(** X19: On a map that satisfies the invariant, [printmap] stays inside the
    table and writes one line per bucket and one pair per entry: as many
    lines as the capacity and as many pairs as [size]. *)
Theorem printmap_lines_and_pairs (map : ts_hashmap_t) :
  map_inv map →
  ∃ out, printmap map = Ok out ∧
         Z.of_nat (count_char "010" out) = capacity map ∧
         Z.of_nat (count_char "(" out) = size map.
Proof.
  intros [Hc Ht Hs Hn].
  destruct (printmap_loop_buckets [] (table map)) as (out & Hout & Hnl & Hp).
  cbn [app length] in Hout. rewrite Ht, Z2Nat.id in Hout by lia.
  exists out. unfold printmap. split; [done|]. split; lia.
Qed.

Lemma printmap_lines_and_pairs_witness :
  map_inv (mk_hashmap [[]; [mk_entry 1 10; mk_entry 5 (-20)]; []; []] 2 4 2) ∧
  ∃ out,
    printmap (mk_hashmap [[]; [mk_entry 1 10; mk_entry 5 (-20)]; []; []] 2 4 2)
    = Ok out ∧
    Z.of_nat (count_char "010" out) = 4 ∧
    Z.of_nat (count_char "(" out) = 2.
Proof.
  assert (map_inv (mk_hashmap [[]; [mk_entry 1 10; mk_entry 5 (-20)]; []; []]
                     2 4 2)) as Hinv.
  { split; cbn; unfold INT_MAX; lia. }
  split; [exact Hinv|].
  exact (printmap_lines_and_pairs _ Hinv).
Defined.

(** X20: On a map that satisfies the invariant, [freeMap] stays inside the table
    and releases every entry of every bucket once, in bucket and chain
    order, [size] entries in all, and after them the table, the map and the
    mutex. *)
Theorem freeMap_releases_every_entry (map : ts_hashmap_t) :
  map_inv map →
  freeMap map
  = Ok ((FreeEntry <$> concat (table map))
        ++ [FreeTable; FreeMap; MutexDestroy]) ∧
  Z.of_nat (length (concat (table map))) = size map.
Proof.
  intros [Hc Ht Hs Hn]. split; [|done].
  pose proof (freeMap_loop_buckets [] (table map)) as Hloop.
  cbn [app length] in Hloop. rewrite Ht, Z2Nat.id in Hloop by lia.
  change (Z.of_nat 0) with 0 in Hloop.
  unfold freeMap. by rewrite Hloop.
Qed.

Lemma freeMap_releases_every_entry_witness :
  map_inv (mk_hashmap [[]; [mk_entry 1 10; mk_entry 5 20]; []; [mk_entry 3 0]]
             3 4 3) ∧
  freeMap (mk_hashmap [[]; [mk_entry 1 10; mk_entry 5 20]; []; [mk_entry 3 0]]
             3 4 3)
  = Ok [FreeEntry (mk_entry 1 10); FreeEntry (mk_entry 5 20);
        FreeEntry (mk_entry 3 0); FreeTable; FreeMap; MutexDestroy].
Proof.
  assert (map_inv (mk_hashmap
                     [[]; [mk_entry 1 10; mk_entry 5 20]; []; [mk_entry 3 0]]
                     3 4 3)) as Hinv.
  { split; cbn; unfold INT_MAX; lia. }
  split; [exact Hinv|].
  exact (proj1 (freeMap_releases_every_entry _ Hinv)).
Defined.

(** ** What get returns, and calls that undo each other *)

(** X21: [get] returns the value of the first entry with the key in the bucket
    of the signed index, and [INT_MAX] when the bucket has no such entry;
    entries behind the first match are not looked at. *)
Theorem get_returns_first_match (map : ts_hashmap_t) (k : Z)
    (entry : list ts_entry_t) :
  0 < capacity map → numOps map < INT_MAX →
  table_at (table map) (Z.rem k (capacity map)) = Ok entry →
  ∃ r, get map k
       = Ok (r, mk_hashmap (table map) (numOps map + 1) (capacity map)
                  (size map)) ∧
       (k ∉ keys entry → r = INT_MAX) ∧
       (∀ l1 x l2, entry = l1 ++ x :: l2 → k ∉ keys l1 → key x = k →
                   r = value x).
Proof.
  intros Hc Hops Hat. exists (get_loop entry k). split; [|split].
  - unfold get. rewrite int_incr_lt by done. cbn.
    rewrite signed_index_pos by done. cbn. by rewrite Hat.
  - apply get_loop_absent.
  - intros l1 x l2 -> Hk Hx. by apply get_loop_first.
Qed.

Lemma get_returns_first_match_witness :
  0 < capacity (mk_hashmap [[]; [mk_entry 1 10; mk_entry 1 20]; []; []] 2 4 2) ∧
  get (mk_hashmap [[]; [mk_entry 1 10; mk_entry 1 20]; []; []] 2 4 2) 1
  = Ok (10, mk_hashmap [[]; [mk_entry 1 10; mk_entry 1 20]; []; []] 3 4 2).
Proof.
  assert (0 < capacity
                (mk_hashmap [[]; [mk_entry 1 10; mk_entry 1 20]; []; []] 2 4 2))
    as Hc by (cbn; lia).
  split; [exact Hc|].
  destruct (get_returns_first_match
              (mk_hashmap [[]; [mk_entry 1 10; mk_entry 1 20]; []; []] 2 4 2)
              1 [mk_entry 1 10; mk_entry 1 20] Hc)
    as (r & Hget & _ & Hfirst).
  - cbn. unfold INT_MAX. lia.
  - reflexivity.
  - rewrite Hget.
    rewrite (Hfirst [] (mk_entry 1 10) [mk_entry 1 20] eq_refl);
      [reflexivity | apply not_elem_of_nil | reflexivity].
Defined.

(** X22: A stored [INT_MAX] cannot be told from a miss: for a key that is not
    negative and that its bucket does not hold, [get] returns [INT_MAX]
    before [put(k, INT_MAX)] and after it. *)
Theorem stored_INT_MAX_reads_as_miss (map : ts_hashmap_t) (k : Z)
    (entry : list ts_entry_t) :
  map_inv map → 0 <= k <= INT_MAX → numOps map + 2 <= INT_MAX →
  table_at (table map) (Z.rem k (capacity map)) = Ok entry →
  k ∉ keys entry →
  (∃ map0, get map k = Ok (INT_MAX, map0)) ∧
  (∃ map2, run map [Put k INT_MAX; Get k] = Ok ([INT_MAX; INT_MAX], map2) ∧
           size map2 = size map + 1).
Proof.
  intros Hinv Hk Hops Hat Habs. pose proof Hinv as [Hc Ht Hs Hn]. split.
  - eexists. unfold get. rewrite int_incr_lt by lia. cbn.
    rewrite signed_index_pos by lia. cbn. rewrite Hat. cbn.
    by rewrite get_loop_absent.
  - cbn [run step].
    rewrite (put_absent map k INT_MAX (Z.rem k (capacity map)) entry);
      [| by rewrite unsigned_index_pos, <- index_agree by lia
       | done | done | lia | lia].
    cbn. unfold get. cbn [numOps capacity table size].
    rewrite int_incr_lt by lia. cbn.
    rewrite signed_index_pos by lia. cbn.
    rewrite (table_at_insert _ _ _ entry) by done.
    rewrite decide_True by done. cbn.
    rewrite get_loop_first by done. cbn. eauto.
Qed.

Lemma stored_INT_MAX_reads_as_miss_witness :
  map_inv (mk_hashmap [[]; [mk_entry 1 10]; []; []] 1 4 1) ∧
  (∃ map0, get (mk_hashmap [[]; [mk_entry 1 10]; []; []] 1 4 1) 5
           = Ok (INT_MAX, map0)) ∧
  (∃ map2, run (mk_hashmap [[]; [mk_entry 1 10]; []; []] 1 4 1)
             [Put 5 INT_MAX; Get 5] = Ok ([INT_MAX; INT_MAX], map2) ∧
           size map2 = 1 + 1).
Proof.
  assert (map_inv (mk_hashmap [[]; [mk_entry 1 10]; []; []] 1 4 1)) as Hinv.
  { split; cbn; unfold INT_MAX; lia. }
  split; [exact Hinv|].
  apply (stored_INT_MAX_reads_as_miss _ 5 [mk_entry 1 10] Hinv).
  - unfold INT_MAX. lia.
  - cbn. unfold INT_MAX. lia.
  - reflexivity.
  - cbn. intros H. apply list_elem_of_singleton in H. discriminate H.
Defined.

(** X23: [put] of a key that is not negative and that its bucket does not hold,
    then [del] of the key, returns [INT_MAX] and then the value, and gives
    back the table and [size] as they were; the operation counter has
    grown by two. *)
Theorem put_new_key_then_del_restores (map : ts_hashmap_t) (k v : Z)
    (entry : list ts_entry_t) :
  map_inv map → 0 <= k <= INT_MAX → numOps map + 2 <= INT_MAX →
  table_at (table map) (Z.rem k (capacity map)) = Ok entry →
  k ∉ keys entry →
  run map [Put k v; Del k]
  = Ok ([INT_MAX; v],
        mk_hashmap (table map) (numOps map + 2) (capacity map) (size map)).
Proof.
  intros Hinv Hk Hops Hat Habs. pose proof Hinv as [Hc Ht Hs Hn].
  cbn [run step].
  rewrite (put_absent map k v (Z.rem k (capacity map)) entry);
    [| by rewrite unsigned_index_pos, <- index_agree by lia
     | done | done | lia | lia].
  cbn. unfold del. cbn [numOps capacity table size].
  rewrite int_incr_lt by lia. cbn.
  rewrite signed_index_pos by lia. cbn.
  rewrite (table_at_insert _ _ _ entry) by done.
  rewrite decide_True by done. cbn.
  rewrite (del_loop_first entry (new_entry k v) [] k) by done.
  rewrite int_decr_gt by (unfold INT_MIN; lia). cbn.
  rewrite list_insert_insert_eq, app_nil_r.
  apply table_at_Ok in Hat as [_ Hat]. rewrite list_insert_id by done.
  do 3 f_equal; lia.
Qed.

Lemma put_new_key_then_del_restores_witness :
  map_inv (mk_hashmap [[]; [mk_entry 1 10]; []; []] 1 4 1) ∧
  run (mk_hashmap [[]; [mk_entry 1 10]; []; []] 1 4 1) [Put 5 20; Del 5]
  = Ok ([INT_MAX; 20], mk_hashmap [[]; [mk_entry 1 10]; []; []] 3 4 1).
Proof.
  assert (map_inv (mk_hashmap [[]; [mk_entry 1 10]; []; []] 1 4 1)) as Hinv.
  { split; cbn; unfold INT_MAX; lia. }
  split; [exact Hinv|].
  apply (put_new_key_then_del_restores _ 5 20 [mk_entry 1 10] Hinv).
  - unfold INT_MAX. lia.
  - cbn. unfold INT_MAX. lia.
  - reflexivity.
  - cbn. intros H. apply list_elem_of_singleton in H. discriminate H.
Defined.
